(** * Conversation queue of the VLSI audio overview backend

    A shallow embedding of [backend/conversation_queue.py]: the
    [QueueSegment] dataclass, the [ConversationQueue] class with its
    playback cursor, and the module-level registry [_queues].

    Python integers are [Z]; a raw segment record (a [dict] with string
    keys) is a [gmap string value]; the methods that can raise run in a
    state-and-exception monad in which the queue keeps whatever was written
    to it before the exception.  The registry holds references to queue
    objects, so it is modelled over a heap of objects. *)

From Stdlib Require Import ssreflect ZArith String List Lia.
From stdpp Require Import base numbers option list gmap strings fin_maps.

#[local] Set Warnings "-rewrite-rw,-clear-no-such-hyp".

Local Open Scope string_scope.
Local Open Scope list_scope.
Local Open Scope Z_scope.

(** ** Python values and exceptions *)

(** The scalars a raw segment record carries. *)
Inductive value : Type :=
  | VNone
  | VBool (b : bool)
  | VInt (z : Z)
  | VStr (s : string).

#[global] Instance value_eq_dec : EqDecision value.
Proof. solve_decision. Defined.

Inductive exn : Type :=
  | KeyError (key : string)
  | IndexError.

#[global] Instance exn_eq_dec : EqDecision exn.
Proof. solve_decision. Defined.

(** [len(l)] *)
Definition len {A} (l : list A) : Z := Z.of_nat (length l).

(** [d[k]]: raises [KeyError] when the key is absent. *)
Definition getitem (d : gmap string value) (k : string) : exn + value :=
  match d !! k with
  | Some v => inr v
  | None => inl (KeyError k)
  end.

(** [d.get(k, dflt)] *)
Definition dict_get (d : gmap string value) (k : string) (dflt : value) : value :=
  match d !! k with
  | Some v => v
  | None => dflt
  end.

(** Position denoted by a subscript [l[i]]: negative subscripts count from
    the end, anything outside [-len, len) raises [IndexError]. *)
Definition subscript {A} (l : list A) (i : Z) : option nat :=
  if (0 <=? i) && (i <? len l) then Some (Z.to_nat i)
  else if (- len l <=? i) && (i <? 0) then Some (Z.to_nat (i + len l))
  else None.

(** [l.insert(i, x)]: a negative index counts from the end, and the index
    is clamped into [0, len]. *)
Definition list_insert_at {A} (i : Z) (x : A) (l : list A) : list A :=
  let j := if i <? 0 then Z.max 0 (i + len l) else Z.min i (len l) in
  take (Z.to_nat j) l ++ x :: drop (Z.to_nat j) l.

(** ** QueueSegment *)

Record QueueSegment : Type := mkQueueSegment {
  segment_id : value;
  speaker : value;
  text : value;
  sequence : value;
  duration_ms : value;
  audio_url : value;
  is_response : bool;
  inserted_at : option string
}.

#[global] Instance QueueSegment_eq_dec : EqDecision QueueSegment.
Proof. solve_decision. Defined.

(** [segment.sequence = v] *)
Definition set_sequence (v : value) (s : QueueSegment) : QueueSegment :=
  {| segment_id := segment_id s; speaker := speaker s; text := text s;
     sequence := v; duration_ms := duration_ms s; audio_url := audio_url s;
     is_response := is_response s; inserted_at := inserted_at s |}.

Definition value_of_option (o : option string) : value :=
  match o with
  | Some s => VStr s
  | None => VNone
  end.

Definition to_dict (s : QueueSegment) : gmap string value :=
  <["segment_id" := segment_id s]>
  (<["speaker" := speaker s]>
  (<["text" := text s]>
  (<["sequence" := sequence s]>
  (<["duration_ms" := duration_ms s]>
  (<["audio_url" := audio_url s]>
  (<["is_response" := VBool (is_response s)]>
  (<["inserted_at" := value_of_option (inserted_at s)]> ∅))))))).

(** The constructor call shared by [load_overview_segments] and
    [insert_response]: the keyword arguments are evaluated left to right,
    so the first absent required key is the one the [KeyError] names. *)
Definition build_segment (resp : bool) (stamp : option string)
    (seg_data : gmap string value) : exn + QueueSegment :=
  match getitem seg_data "segment_id" with
  | inl e => inl e
  | inr sid =>
    match getitem seg_data "speaker" with
    | inl e => inl e
    | inr spk =>
      match getitem seg_data "text" with
      | inl e => inl e
      | inr txt =>
        match getitem seg_data "sequence" with
        | inl e => inl e
        | inr sq =>
          inr {| segment_id := sid; speaker := spk; text := txt;
                 sequence := sq;
                 duration_ms := dict_get seg_data "duration_ms" (VInt 0);
                 audio_url := dict_get seg_data "audio_url" VNone;
                 is_response := resp; inserted_at := stamp |}
        end
      end
    end
  end.

(** ** ConversationQueue *)

Record ConversationQueue : Type := mkConversationQueue {
  overview_id : string;
  segments : list QueueSegment;
  current_position : Z;
  playback_paused : bool
}.

(** [ConversationQueue.__init__] *)
Definition init (oid : string) : ConversationQueue :=
  {| overview_id := oid; segments := []; current_position := 0;
     playback_paused := false |}.

Definition set_segments (l : list QueueSegment) (q : ConversationQueue) :=
  {| overview_id := overview_id q; segments := l;
     current_position := current_position q;
     playback_paused := playback_paused q |}.

Definition set_current_position (p : Z) (q : ConversationQueue) :=
  {| overview_id := overview_id q; segments := segments q;
     current_position := p; playback_paused := playback_paused q |}.

Definition set_playback_paused (b : bool) (q : ConversationQueue) :=
  {| overview_id := overview_id q; segments := segments q;
     current_position := current_position q; playback_paused := b |}.

(** ** Methods that may raise: state and exception *)

Module Py.

(** A method body: it runs on the queue, leaves a queue behind, and either
    returns or raises.  The queue left behind by a raise keeps every write
    made before it. *)
Definition M (A : Type) : Type :=
  ConversationQueue -> ConversationQueue * (exn + A).

Definition ret {A} (a : A) : M A := fun q => (q, inr a).

Definition raise {A} (e : exn) : M A := fun q => (q, inl e).

Definition bind {A B} (m : M A) (k : A -> M B) : M B :=
  fun q =>
    match m q with
    | (q', inr a) => k a q'
    | (q', inl e) => (q', inl e)
    end.

Definition lift {A} (r : exn + A) : M A :=
  match r with
  | inr a => ret a
  | inl e => raise e
  end.

Definition read : M ConversationQueue := fun q => (q, inr q).

Definition write_segments (f : list QueueSegment -> list QueueSegment) : M unit :=
  fun q => (set_segments (f (segments q)) q, inr tt).

End Py.

Notation "'let*' x := m 'in' k" := (Py.bind m (fun x => k))
  (at level 10, x name, m at level 100, k at level 200).

(** [for i in range(start, start + n): body(i)] *)
Fixpoint for_range (n : nat) (i : Z) (body : Z -> Py.M unit) : Py.M unit :=
  match n with
  | O => Py.ret tt
  | S n' => let* _ := body i in for_range n' (i + 1) body
  end.

(** The loop of [load_overview_segments]: each record is built and appended
    to [self.segments] in turn. *)
Fixpoint load_loop (segs : list (gmap string value)) : Py.M unit :=
  match segs with
  | [] => Py.ret tt
  | seg_data :: rest =>
      let* segment := Py.lift (build_segment false None seg_data) in
      let* _ := Py.write_segments (fun l => l ++ [segment]) in
      load_loop rest
  end.

Definition load_overview_segments (segs : list (gmap string value)) : Py.M unit :=
  let* _ := Py.write_segments (fun _ => []) in
  load_loop segs.

(** The first loop of [insert_response] fills the local list
    [response_queue_segments]; [utcnow k] is the clock reading taken for the
    [k]-th record. *)
Fixpoint build_responses (utcnow : nat -> string) (k : nat)
    (response_segments : list (gmap string value)) : exn + list QueueSegment :=
  match response_segments with
  | [] => inr []
  | seg_data :: rest =>
      match build_segment true (Some (utcnow k)) seg_data with
      | inl e => inl e
      | inr segment =>
          match build_responses utcnow (S k) rest with
          | inl e => inl e
          | inr l => inr (segment :: l)
          end
      end
  end.

(** [for i, segment in enumerate(...): self.segments.insert(insert_pos + i, segment)] *)
Fixpoint insert_loop (insert_pos : Z) (i : Z) (new : list QueueSegment) : Py.M unit :=
  match new with
  | [] => Py.ret tt
  | segment :: rest =>
      let* _ := Py.write_segments (list_insert_at (insert_pos + i) segment) in
      insert_loop insert_pos (i + 1) rest
  end.

(** [self.segments[i].sequence = i] *)
Definition assign_sequence (i : Z) : Py.M unit :=
  let* q := Py.read in
  match subscript (segments q) i with
  | Some k => Py.write_segments (alter (set_sequence (VInt i)) k)
  | None => Py.raise IndexError
  end.

Definition _resequence_segments (start_pos : Z) : Py.M unit :=
  let* q := Py.read in
  for_range (Z.to_nat (len (segments q) - start_pos)) start_pos assign_sequence.

Definition insert_response (utcnow : nat -> string)
    (response_segments : list (gmap string value))
    (insert_after_current : bool) : Py.M Z :=
  let* q := Py.read in
  match response_segments with
  | [] => Py.ret (current_position q)
  | _ :: _ =>
      let insert_pos :=
        if insert_after_current then current_position q + 1
        else len (segments q) in
      let* response_queue_segments :=
        Py.lift (build_responses utcnow 0 response_segments) in
      let* _ := insert_loop insert_pos 0 response_queue_segments in
      let* _ := _resequence_segments (insert_pos + len response_queue_segments) in
      Py.ret insert_pos
  end.

(** ** Methods that cannot raise *)

(** [get_next_segment]: past the end it returns [None]; the subscript raises
    only for a cursor below [-len(segments)]. *)
Definition get_next_segment (q : ConversationQueue) : exn + option QueueSegment :=
  if len (segments q) <=? current_position q then inr None
  else match subscript (segments q) (current_position q) with
       | Some k => inr (segments q !! k)
       | None => inl IndexError
       end.

Definition advance (q : ConversationQueue) : ConversationQueue * bool :=
  if current_position q <? len (segments q) - 1
  then (set_current_position (current_position q + 1) q, true)
  else (q, false).

Definition seek (position : Z) (q : ConversationQueue) : ConversationQueue * bool :=
  if (0 <=? position) && (position <? len (segments q))
  then (set_current_position position q, true)
  else (q, false).

Definition get_current_position (q : ConversationQueue) : Z := current_position q.

Definition get_total_segments (q : ConversationQueue) : Z := len (segments q).

Definition get_remaining_segments (q : ConversationQueue) : Z :=
  len (segments q) - current_position q - 1.

(** The dictionary returned by [get_queue_state], one field per key. *)
Record QueueState : Type := mkQueueState {
  state_overview_id : string;
  state_total_segments : Z;
  state_current_position : Z;
  state_remaining_segments : Z;
  state_playback_paused : bool;
  state_segments : list (gmap string value)
}.

Definition get_queue_state (q : ConversationQueue) : QueueState :=
  {| state_overview_id := overview_id q;
     state_total_segments := len (segments q);
     state_current_position := current_position q;
     state_remaining_segments := get_remaining_segments q;
     state_playback_paused := playback_paused q;
     state_segments := to_dict <$> segments q |}.

(** Python's [==] on scalars: [True] and [False] are the integers 1 and 0,
    and values of different kinds are unequal. *)
Definition as_int (v : value) : option Z :=
  match v with
  | VBool b => Some (if b then 1 else 0)
  | VInt z => Some z
  | _ => None
  end.

Definition py_eq (a b : value) : bool :=
  match a, b with
  | VNone, VNone => true
  | VStr s, VStr t => bool_decide (s = t)
  | _, _ =>
      match as_int a, as_int b with
      | Some x, Some y => x =? y
      | _, _ => false
      end
  end.

(** The loop of [get_segment_by_id]: the first segment whose id equals the
    one asked for wins. *)
Fixpoint find_segment (sid : value) (l : list QueueSegment) : option QueueSegment :=
  match l with
  | [] => None
  | segment :: rest =>
      if py_eq (segment_id segment) sid then Some segment
      else find_segment sid rest
  end.

Definition get_segment_by_id (sid : value) (q : ConversationQueue)
    : option QueueSegment :=
  find_segment sid (segments q).

Definition pause (q : ConversationQueue) : ConversationQueue :=
  set_playback_paused true q.

Definition resume (q : ConversationQueue) : ConversationQueue :=
  set_playback_paused false q.


(** ** The registry

    [_queues] maps an overview id to a reference to a queue object; the
    objects live in [objects], so a queue handed out twice is one object. *)

Record Registry : Type := mkRegistry {
  objects : gmap positive ConversationQueue;
  _queues : gmap string positive
}.

Definition get_conversation_queue (oid : string) (w : Registry) : Registry * positive :=
  match _queues w !! oid with
  | Some ref => (w, ref)
  | None =>
      let ref := fresh (dom (objects w)) in
      ({| objects := <[ref := init oid]> (objects w);
          _queues := <[oid := ref]> (_queues w) |}, ref)
  end.

Definition clear_queue (oid : string) (w : Registry) : Registry :=
  match _queues w !! oid with
  | Some _ => {| objects := objects w; _queues := delete oid (_queues w) |}
  | None => w
  end.

(** A method call through a reference: the object is updated in place. *)
Definition invoke {A} (ref : positive) (m : Py.M A) (w : Registry)
    : Registry * option (exn + A) :=
  match objects w !! ref with
  | Some q =>
      ({| objects := <[ref := (m q).1]> (objects w); _queues := _queues w |},
       Some (m q).2)
  | None => (w, None)
  end.

(** ** Input records *)

Definition required_fields : list string :=
  ["segment_id"; "speaker"; "text"; "sequence"].

(** A record is well formed when it has every required key. *)
Definition well_formed (d : gmap string value) : Prop :=
  Forall (fun k => is_Some (d !! k)) required_fields.

(** The first required key a record lacks, in constructor-argument order. *)
Definition missing_field (d : gmap string value) : option string :=
  List.find (fun k => bool_decide (d !! k = None)) required_fields.

(** The segment a well-formed record is turned into. *)
Definition segment_of (resp : bool) (stamp : option string)
    (d : gmap string value) : QueueSegment :=
  {| segment_id := dict_get d "segment_id" VNone;
     speaker := dict_get d "speaker" VNone;
     text := dict_get d "text" VNone;
     sequence := dict_get d "sequence" VNone;
     duration_ms := dict_get d "duration_ms" (VInt 0);
     audio_url := dict_get d "audio_url" VNone;
     is_response := resp; inserted_at := stamp |}.

(** A record as the producers write it. *)
Definition record (sid spk txt : string) (sq dur : Z) (url : string)
    : gmap string value :=
  <["segment_id" := VStr sid]>
  (<["speaker" := VStr spk]>
  (<["text" := VStr txt]>
  (<["sequence" := VInt sq]>
  (<["duration_ms" := VInt dur]>
  (<["audio_url" := VStr url]> ∅))))).

(** The records of [test_conversation_queue.py]. *)
Definition overview_segments : list (gmap string value) :=
  [ record "seg_0" "zoya" "Welcome to FSM design!" 0 3000 "/api/audio/seg_0";
    record "seg_1" "ravi" "I'm excited to learn!" 1 2500 "/api/audio/seg_1";
    record "seg_2" "zoya" "Let's start with basics." 2 2800 "/api/audio/seg_2" ].

Definition response_segments : list (gmap string value) :=
  [ record "resp_0" "ravi" "Great question!" 0 2000 "/api/audio/resp_0";
    record "resp_1" "zoya" "Let me explain..." 1 3500 "/api/audio/resp_1" ].

Definition test_clock (k : nat) : string := "2025-01-01T00:00:00".

(** The specification-side reading of the two structural loops: the
    segments built from well-formed response records, and a list whose
    sequence fields are rewritten to consecutive positions from [i] on. *)
Fixpoint responses_of (utcnow : nat -> string) (k : nat)
    (rs : list (gmap string value)) : list QueueSegment :=
  match rs with
  | [] => []
  | d :: rest => segment_of true (Some (utcnow k)) d :: responses_of utcnow (S k) rest
  end.

Fixpoint renumber (i : Z) (l : list QueueSegment) : list QueueSegment :=
  match l with
  | [] => []
  | s :: rest => set_sequence (VInt i) s :: renumber (i + 1) rest
  end.

(** The name a failing call reports: the first missing required key of the
    first malformed record. *)
Fixpoint first_missing (l : list (gmap string value)) : option string :=
  match l with
  | [] => None
  | d :: rest =>
      match missing_field d with
      | Some k => Some k
      | None => first_missing rest
      end
  end.

(** The list [insert_response] leaves behind at insertion index [p]. *)
Definition spliced (p : Z) (new l : list QueueSegment) : list QueueSegment :=
  take (Z.to_nat p) l ++ new ++ renumber (p + len new) (drop (Z.to_nat p) l).

(** The insertion index [insert_response] computes. *)
Definition insert_pos_of (after : bool) (q : ConversationQueue) : Z :=
  if after then current_position q + 1 else len (segments q).

(** ** Call sequences, invariants and the test's data *)

(** Two queues that agree on the identifier, the cursor and the pause flag:
    what a method body that only writes [self.segments] leaves alone,
    whether it returns or raises. *)
Definition same_frame (q q' : ConversationQueue) : Prop :=
  overview_id q' = overview_id q /\
  current_position q' = current_position q /\
  playback_paused q' = playback_paused q.

Inductive call : Type :=
  | LoadInitial (segs : list (gmap string value))
  | InsertResponse (utcnow : nat -> string) (rs : list (gmap string value))
                   (after : bool)
  | Advance
  | Seek (position : Z)
  | Pause
  | Resume.

(** The queue a call leaves behind, whether it returned or raised. *)
Definition run (c : call) (q : ConversationQueue) : ConversationQueue :=
  match c with
  | LoadInitial segs => (load_overview_segments segs q).1
  | InsertResponse utcnow rs after => (insert_response utcnow rs after q).1
  | Advance => (advance q).1
  | Seek position => (seek position q).1
  | Pause => pause q
  | Resume => resume q
  end.

(** States reachable from a fresh queue through calls drawn from [allowed],
    which may look at the state the call is made in. *)
Inductive reachable (allowed : call -> ConversationQueue -> Prop) (oid : string)
    : ConversationQueue -> Prop :=
  | reachable_init : reachable allowed oid (init oid)
  | reachable_run c q :
      reachable allowed oid q -> allowed c q -> reachable allowed oid (run c q).

Definition any_call (c : call) (q : ConversationQueue) : Prop := True.

(** Structural calls on well-formed records. *)
Definition structural (c : call) (q : ConversationQueue) : Prop :=
  match c with
  | LoadInitial segs => Forall well_formed segs
  | InsertResponse _ rs _ => Forall well_formed rs
  | _ => False
  end.

(** The records of [rs] carry the positions [start], [start + 1], ... in
    their sequence field. *)
Definition positional (start : Z) (rs : list (gmap string value)) : Prop :=
  forall (j : nat) d,
    rs !! j = Some d -> d !! "sequence" = Some (VInt (start + Z.of_nat j)).

(** Structural calls whose records already carry the position the call
    puts them at. *)
Definition presequenced (c : call) (q : ConversationQueue) : Prop :=
  match c with
  | LoadInitial segs => Forall well_formed segs /\ positional 0 segs
  | InsertResponse _ rs after =>
      Forall well_formed rs /\
      positional (Z.min (insert_pos_of after q) (len (segments q))) rs
  | _ => False
  end.

(** Calls in which a load only happens with the cursor at the start. *)
Definition load_at_start (c : call) (q : ConversationQueue) : Prop :=
  match c with
  | LoadInitial _ => current_position q = 0
  | _ => True
  end.

Definition sequence_invariant (q : ConversationQueue) : Prop :=
  forall (i : nat) s,
    segments q !! i = Some s -> sequence s = VInt (Z.of_nat i).

Definition cursor_invariant (q : ConversationQueue) : Prop :=
  0 <= current_position q <= len (segments q).

#[global] Instance well_formed_dec d : Decision (well_formed d).
Proof. unfold well_formed. apply _. Defined.

(** The queue of [test_conversation_queue.py] after its load, and after the
    test's responses are inserted without moving the cursor first. *)
Definition loaded_test_queue : ConversationQueue :=
  run (LoadInitial overview_segments) (init "test_overview_001").

Definition after_test_insert : ConversationQueue :=
  run (InsertResponse test_clock response_segments true) loaded_test_queue.

(** Responses that already carry the positions 1 and 2. *)
Definition presequenced_responses : list (gmap string value) :=
  [ record "resp_0" "ravi" "Great question!" 1 2000 "/api/audio/resp_0";
    record "resp_1" "zoya" "Let me explain..." 2 3500 "/api/audio/resp_1" ].

Definition three_segment_queue (oid : string) (s0 s1 s2 : QueueSegment)
    (paused : bool) : ConversationQueue :=
  {| overview_id := oid; segments := [s0; s1; s2]; current_position := 0;
     playback_paused := paused |}.

(** The test's first record followed by its second record without a text. *)
Definition malformed_segments : list (gmap string value) :=
  [ record "seg_0" "zoya" "Welcome to FSM design!" 0 3000 "/api/audio/seg_0";
    delete "text" (record "seg_1" "ravi" "I'm excited to learn!" 1 2500 "/api/audio/seg_1") ].

(** The test's queue after a seek to its last segment and a reload with no
    records. *)
Definition reloaded_empty : ConversationQueue :=
  run (LoadInitial []) (run (Seek 2) loaded_test_queue).

Definition empty_registry : Registry := {| objects := ∅; _queues := ∅ |}.

(** ** Derived operations used to state how the methods compose *)

(** [k] calls of [advance] in a row. *)
Fixpoint advance_times (k : nat) (q : ConversationQueue) : ConversationQueue :=
  match k with
  | O => q
  | S k' => advance_times k' (advance q).1
  end.

(** A segment as a load rebuilds it: not a response, no insertion time. *)
Definition as_loaded (s : QueueSegment) : QueueSegment :=
  {| segment_id := segment_id s; speaker := speaker s; text := text s;
     sequence := sequence s; duration_ms := duration_ms s;
     audio_url := audio_url s; is_response := false; inserted_at := None |}.

(** The records in front of the first malformed one. *)
Fixpoint valid_prefix (l : list (gmap string value)) : list (gmap string value) :=
  match l with
  | [] => []
  | d :: rest =>
      match missing_field d with
      | Some _ => []
      | None => d :: valid_prefix rest
      end
  end.

(** Number of segments flagged as responses. *)
Definition response_count (l : list QueueSegment) : nat :=
  length (filter (fun s => is_response s = true) l).

(** A registry in which every registered reference points at an object and
    no two ids share a reference. *)
Definition registry_ok (w : Registry) : Prop :=
  (forall oid ref, _queues w !! oid = Some ref -> is_Some (objects w !! ref)) /\
  (forall oid1 oid2 ref,
     _queues w !! oid1 = Some ref -> _queues w !! oid2 = Some ref -> oid1 = oid2).

(** Calls on the registry: the two module functions, and a method call on a
    queue through a reference obtained earlier. *)
Inductive registry_call : Type :=
  | GetQueue (oid : string)
  | ClearQueue (oid : string)
  | Method (ref : positive) (c : call).

Definition registry_run (c : registry_call) (w : Registry) : Registry :=
  match c with
  | GetQueue oid => (get_conversation_queue oid w).1
  | ClearQueue oid => clear_queue oid w
  | Method ref c =>
      match objects w !! ref with
      | Some q => {| objects := <[ref := run c q]> (objects w); _queues := _queues w |}
      | None => w
      end
  end.

Inductive registry_reachable : Registry -> Prop :=
  | registry_start : registry_reachable empty_registry
  | registry_step c w :
      registry_reachable w -> registry_reachable (registry_run c w).

(** ** The script generator ([script_generator.py])

    [DialogueSegment] is the pydantic model of [gemini_client.py]: its
    fields are typed, so a speaker and a text are strings and a sequence is
    an integer.  Printed warnings are left out, except in
    [_ensure_speaker_alternation], whose only effect they are. *)

Inductive pyerr : Type :=
  | ValueError (msg : string)
  | TypeError.

Module Script.

Record DialogueSegment : Type := mkDialogueSegment {
  speaker : string;
  text : string;
  sequence : Z
}.

#[global] Instance DialogueSegment_eq_dec : EqDecision DialogueSegment.
Proof. solve_decision. Defined.

(** [seg.sequence = i] *)
Definition set_sequence (i : Z) (seg : DialogueSegment) : DialogueSegment :=
  {| speaker := speaker seg; text := text seg; sequence := i |}.

(** A warning of [_ensure_speaker_alternation]: the speaker, the count of
    consecutive turns and the index it is printed at. *)
Record Warning : Type := mkWarning {
  warned_speaker : string;
  warned_count : Z;
  warned_at : Z
}.

(** The loop of [_ensure_speaker_alternation] from index [i] on, with the
    two loop variables. *)
Fixpoint alternation_loop (i : Z) (consecutive_count : Z) (last_speaker : string)
    (rest : list DialogueSegment) : list Warning :=
  match rest with
  | [] => []
  | seg :: rest' =>
      if bool_decide (speaker seg = last_speaker)
      then
        (if 2 <? consecutive_count + 1
         then [mkWarning last_speaker (consecutive_count + 1) i]
         else []) ++
        alternation_loop (i + 1) (consecutive_count + 1) last_speaker rest'
      else alternation_loop (i + 1) 1 (speaker seg) rest'
  end.

(** [_ensure_speaker_alternation]: the segments come back as they are. *)
Definition _ensure_speaker_alternation (segments : list DialogueSegment)
    : list DialogueSegment * list Warning :=
  match segments with
  | [] => (segments, [])
  | [_] => (segments, [])
  | first :: rest => (segments, alternation_loop 1 1 (speaker first) rest)
  end.

(** The sequence loop of [_validate_dialogue_structure]. *)
Fixpoint fix_sequences (i : Z) (segments : list DialogueSegment)
    : list DialogueSegment :=
  match segments with
  | [] => []
  | seg :: rest =>
      (if bool_decide (sequence seg = i) then seg else set_sequence i seg)
        :: fix_sequences (i + 1) rest
  end.

(** [_validate_dialogue_structure]: raises on an empty dialogue, otherwise
    rewrites wrong sequence numbers in the segments it was given. *)
Definition _validate_dialogue_structure (segments : list DialogueSegment)
    : list DialogueSegment * (pyerr + unit) :=
  match segments with
  | [] => (segments, inl (ValueError "Dialogue is empty"))
  | _ :: _ => (fix_sequences 0 segments, inr tt)
  end.

(** [generate_dialogue] after the client has answered with [generated]. *)
Definition generate_dialogue (generated : list DialogueSegment)
    : pyerr + list DialogueSegment :=
  let segments := (_ensure_speaker_alternation generated).1 in
  match _validate_dialogue_structure segments with
  | (_, inl e) => inl e
  | (segments', inr _) => inr segments'
  end.

(** The first loop of [get_speaker_distribution]. *)
Fixpoint count_speakers (segments : list DialogueSegment)
    (speaker_counts : gmap string Z) : gmap string Z :=
  match segments with
  | [] => speaker_counts
  | seg :: rest =>
      count_speakers rest
        (<[speaker seg := default 0 (speaker_counts !! speaker seg) + 1]>
           speaker_counts)
  end.

(** [get_speaker_distribution]; [percentage count total] stands for the
    floating-point expression [(count / total) * 100 if total > 0 else 0]. *)
Definition get_speaker_distribution {F : Type} (percentage : Z -> Z -> F)
    (segments : list DialogueSegment) : gmap string (Z * F) :=
  let speaker_counts := count_speakers segments ∅ in
  let total := len segments in
  (fun count => (count, percentage count total)) <$> speaker_counts.

(** Number of turns of a speaker. *)
Definition turns (sp : string) (segments : list DialogueSegment) : Z :=
  len (filter (fun seg => speaker seg = sp) segments).

End Script.

(** Position [i] holds the third (or later) turn in a row of one speaker. *)
Definition third_consecutive_turn (segments : list Script.DialogueSegment)
    (i : nat) : Prop :=
  exists (j : nat) x y z,
    i = (j + 2)%nat /\
    segments !! j = Some x /\ segments !! (j + 1)%nat = Some y /\
    segments !! (j + 2)%nat = Some z /\
    Script.speaker x = Script.speaker y /\ Script.speaker y = Script.speaker z.

(** ** Audio metadata ([audio_processor.py]) *)

Module Audio.

(** Python truthiness of a scalar. *)
Definition truthy (v : value) : bool :=
  match v with
  | VNone => false
  | VBool b => b
  | VInt z => negb (z =? 0)
  | VStr s => negb (String.eqb s "")
  end.

Record AudioMetadata : Type := mkAudioMetadata {
  segment_id : value;
  speaker : value;
  text : value;
  sequence : value;
  duration_ms : value;
  file_path : value;
  format : value;
  sample_rate : value;
  channels : value;
  bitrate : value;
  created_at : value
}.

Definition required_parameters : list string :=
  ["segment_id"; "speaker"; "text"; "sequence"; "duration_ms"; "file_path"].

Definition parameters : list string :=
  required_parameters ++
  ["format"; "sample_rate"; "channels"; "bitrate"; "created_at"].

(** [AudioMetadata.__init__] with every argument resolved; [now] is
    [datetime.utcnow().isoformat()]. *)
Definition __init__ (now : string)
    (segment_id speaker text sequence duration_ms file_path
     format sample_rate channels bitrate created_at : value) : AudioMetadata :=
  {| segment_id := segment_id; speaker := speaker; text := text;
     sequence := sequence; duration_ms := duration_ms; file_path := file_path;
     format := format; sample_rate := sample_rate; channels := channels;
     bitrate := bitrate;
     created_at := if truthy created_at then created_at else VStr now |}.

Definition to_dict (m : AudioMetadata) : gmap string value :=
  <["segment_id" := segment_id m]>
  (<["speaker" := speaker m]>
  (<["text" := text m]>
  (<["sequence" := sequence m]>
  (<["duration_ms" := duration_ms m]>
  (<["file_path" := file_path m]>
  (<["format" := format m]>
  (<["sample_rate" := sample_rate m]>
  (<["channels" := channels m]>
  (<["bitrate" := bitrate m]>
  (<["created_at" := created_at m]> ∅)))))))))).

(** [from_dict]: the call of [cls] with the dictionary unpacked as keyword
    arguments raises [TypeError] for a key that is no
    parameter and for a missing required parameter; absent optional
    parameters take their defaults. *)
Definition from_dict (now : string) (data : gmap string value)
    : pyerr + AudioMetadata :=
  if negb (forallb (fun k => bool_decide (k ∈ parameters)) (elements (dom data)))
  then inl TypeError
  else if negb (forallb (fun k => bool_decide (is_Some (data !! k)))
                        required_parameters)
  then inl TypeError
  else inr (__init__ now
              (dict_get data "segment_id" VNone)
              (dict_get data "speaker" VNone)
              (dict_get data "text" VNone)
              (dict_get data "sequence" VNone)
              (dict_get data "duration_ms" VNone)
              (dict_get data "file_path" VNone)
              (dict_get data "format" (VStr "wav"))
              (dict_get data "sample_rate" (VInt 22050))
              (dict_get data "channels" (VInt 1))
              (dict_get data "bitrate" (VStr "128k"))
              (dict_get data "created_at" VNone)).

End Audio.

(** * Properties *)

(** ** Records and the constructor *)

Lemma set_segments_id q : set_segments (segments q) q = q.
Proof. by destruct q. Qed.

Lemma set_segments_twice l1 l2 q :
  set_segments l1 (set_segments l2 q) = set_segments l1 q.
Proof. done. Qed.

Lemma well_formed_lookups d :
  well_formed d <->
  is_Some (d !! "segment_id") /\ is_Some (d !! "speaker") /\
  is_Some (d !! "text") /\ is_Some (d !! "sequence").
Proof.
  unfold well_formed, required_fields. rewrite !Forall_cons.
  intuition auto using Forall_nil_2.
Qed.

Lemma missing_field_None d : missing_field d = None <-> well_formed d.
Proof.
  rewrite well_formed_lookups. unfold missing_field. simpl.
  repeat case_bool_decide; split; try done;
    rewrite <- ?not_eq_None_Some; try tauto.
Qed.

Lemma missing_field_Some d k :
  missing_field d = Some k -> k ∈ required_fields /\ d !! k = None.
Proof.
  unfold missing_field. intros H. apply find_some in H as [Hin Hk].
  apply bool_decide_eq_true in Hk. by rewrite list_elem_of_In.
Qed.

Lemma build_segment_well_formed resp stamp d :
  well_formed d -> build_segment resp stamp d = inr (segment_of resp stamp d).
Proof.
  rewrite well_formed_lookups. intros ([a Ha] & [b Hb] & [c Hc] & [e He]).
  unfold build_segment, segment_of, getitem, dict_get.
  by rewrite Ha Hb Hc He.
Qed.

Lemma build_segment_missing resp stamp d k :
  missing_field d = Some k -> build_segment resp stamp d = inl (KeyError k).
Proof.
  unfold missing_field, build_segment, getitem. simpl.
  repeat case_bool_decide; intros [= <-];
    repeat match goal with
           | H : ?x = None |- _ => rewrite H
           | H : ?x <> None |- _ => destruct x; [clear H | done]
           end; done.
Qed.

Lemma first_missing_None l : first_missing l = None <-> Forall well_formed l.
Proof.
  induction l as [|d l IH]; simpl.
  - split; auto.
  - rewrite Forall_cons -IH -missing_field_None.
    destruct (missing_field d); naive_solver.
Qed.

Lemma first_missing_Some l k :
  first_missing l = Some k ->
  exists d, d ∈ l /\ k ∈ required_fields /\ d !! k = None.
Proof.
  induction l as [|d l IH]; simpl; [done|].
  destruct (missing_field d) as [k'|] eqn:E.
  - intros [= <-]. apply missing_field_Some in E as [? ?].
    exists d. split; [left | done].
  - intros H. destruct (IH H) as (d' & ? & ? & ?).
    exists d'. split; [by right | done].
Qed.

Lemma malformed_first_missing l :
  ~ Forall well_formed l -> exists k, first_missing l = Some k.
Proof.
  rewrite <- first_missing_None. destruct (first_missing l); eauto. done.
Qed.

(** ** The loops *)

Lemma len_app {A} (l k : list A) : len (l ++ k) = len l + len k.
Proof. unfold len. rewrite length_app. lia. Qed.

Lemma len_nonneg {A} (l : list A) : 0 <= len l.
Proof. unfold len. lia. Qed.

Lemma length_renumber i l : length (renumber i l) = length l.
Proof. revert i. induction l as [|s l IH]; intros i; simpl; [done | by rewrite IH]. Qed.

Lemma lookup_renumber i l (j : nat) :
  renumber i l !! j = set_sequence (VInt (i + Z.of_nat j)) <$> l !! j.
Proof.
  revert i j. induction l as [|s l IH]; intros i [|j]; simpl; try done.
  - by rewrite Z.add_0_r.
  - rewrite IH. do 3 f_equal. lia.
Qed.

Lemma length_responses_of utcnow k rs :
  length (responses_of utcnow k rs) = length rs.
Proof. revert k. induction rs as [|d rs IH]; intros k; simpl; [done | by rewrite IH]. Qed.

Lemma lookup_responses_of utcnow k rs (j : nat) :
  responses_of utcnow k rs !! j =
  segment_of true (Some (utcnow (k + j)%nat)) <$> rs !! j.
Proof.
  revert k j. induction rs as [|d rs IH]; intros k [|j]; simpl; try done.
  - by rewrite Nat.add_0_r.
  - rewrite IH. by rewrite Nat.add_succ_r.
Qed.

Lemma same_frame_refl q : same_frame q q.
Proof. by unfold same_frame. Qed.

Lemma same_frame_trans q1 q2 q3 :
  same_frame q1 q2 -> same_frame q2 q3 -> same_frame q1 q3.
Proof. unfold same_frame. intuition congruence. Qed.

Lemma same_frame_set_segments l q : same_frame q (set_segments l q).
Proof. by unfold same_frame. Qed.

Create HintDb frame.
#[local] Hint Resolve same_frame_refl same_frame_set_segments : frame.

Lemma load_loop_frame segs q : same_frame q (load_loop segs q).1.
Proof.
  revert q. induction segs as [|d segs IH]; intros q; simpl; [auto with frame|].
  unfold Py.bind, Py.lift. destruct (build_segment false None d); simpl.
  - auto with frame.
  - eapply same_frame_trans; [|apply IH]. auto with frame.
Qed.

Lemma load_overview_segments_frame segs q :
  same_frame q (load_overview_segments segs q).1.
Proof.
  unfold load_overview_segments, Py.bind. simpl.
  eapply same_frame_trans; [|apply load_loop_frame]. auto with frame.
Qed.

Lemma insert_loop_frame p i new q : same_frame q (insert_loop p i new q).1.
Proof.
  revert i q. induction new as [|s new IH]; intros i q; simpl; [auto with frame|].
  unfold Py.bind. simpl. eapply same_frame_trans; [|apply IH]. auto with frame.
Qed.

Lemma assign_sequence_frame i q : same_frame q (assign_sequence i q).1.
Proof.
  unfold assign_sequence, Py.bind, Py.read.
  destruct (subscript (segments q) i); simpl; auto with frame.
Qed.

Lemma for_range_frame n i q : same_frame q (for_range n i assign_sequence q).1.
Proof.
  revert i q. induction n as [|n IH]; intros i q; simpl; [auto with frame|].
  unfold Py.bind. pose proof (assign_sequence_frame i q) as H.
  destruct (assign_sequence i q) as [q' [e|[]]]; simpl in *; [done|].
  eapply same_frame_trans; [apply H | apply IH].
Qed.

Lemma _resequence_segments_frame start q :
  same_frame q (_resequence_segments start q).1.
Proof. unfold _resequence_segments, Py.bind, Py.read. apply for_range_frame. Qed.

Lemma insert_response_frame utcnow rs after q :
  same_frame q (insert_response utcnow rs after q).1.
Proof.
  unfold insert_response, Py.bind, Py.read, Py.lift.
  destruct rs as [|d rs]; [auto with frame|].
  destruct (build_responses utcnow 0 (d :: rs)) as [e|new]; [auto with frame|].
  unfold Py.ret.
  set (p := if after then _ else _).
  pose proof (insert_loop_frame p 0 new q) as H1.
  destruct (insert_loop p 0 new q) as [q1 [e|[]]]; simpl in *; [done|].
  pose proof (_resequence_segments_frame (p + len new) q1) as H2.
  destruct (_resequence_segments (p + len new) q1) as [q2 [e|[]]]; simpl in *;
    eapply same_frame_trans; eauto.
Qed.

(** [load_overview_segments] on well-formed records, and what it raises
    otherwise. *)
Lemma load_loop_well_formed segs q :
  Forall well_formed segs ->
  load_loop segs q =
  (set_segments (segments q ++ map (segment_of false None) segs) q, inr tt).
Proof.
  revert q. induction segs as [|d segs IH]; intros q Hwf; simpl.
  - by rewrite app_nil_r set_segments_id.
  - apply Forall_cons in Hwf as [Hd Hwf].
    unfold Py.bind. rewrite (build_segment_well_formed _ _ _ Hd). simpl.
    rewrite (IH _ Hwf). simpl. by rewrite -app_assoc.
Qed.

Lemma load_overview_segments_well_formed segs q :
  Forall well_formed segs ->
  load_overview_segments segs q =
  (set_segments (map (segment_of false None) segs) q, inr tt).
Proof.
  intros Hwf. unfold load_overview_segments, Py.bind. simpl.
  by rewrite (load_loop_well_formed _ _ Hwf).
Qed.

Lemma load_loop_raises segs q k :
  first_missing segs = Some k -> (load_loop segs q).2 = inl (KeyError k).
Proof.
  revert q. induction segs as [|d segs IH]; intros q; simpl; [done|].
  unfold Py.bind. destruct (missing_field d) as [k'|] eqn:E.
  - intros [= <-]. by rewrite (build_segment_missing _ _ _ _ E).
  - intros H. apply missing_field_None in E.
    rewrite (build_segment_well_formed _ _ _ E). simpl. by apply IH.
Qed.

Lemma build_responses_well_formed utcnow k rs :
  Forall well_formed rs ->
  build_responses utcnow k rs = inr (responses_of utcnow k rs).
Proof.
  revert k. induction rs as [|d rs IH]; intros k Hwf; simpl; [done|].
  apply Forall_cons in Hwf as [Hd Hwf].
  by rewrite (build_segment_well_formed _ _ _ Hd) (IH _ Hwf).
Qed.

Lemma build_responses_raises utcnow n rs k :
  first_missing rs = Some k -> build_responses utcnow n rs = inl (KeyError k).
Proof.
  revert n. induction rs as [|d rs IH]; intros n; simpl; [done|].
  destruct (missing_field d) as [k'|] eqn:E.
  - intros [= <-]. by rewrite (build_segment_missing _ _ _ _ E).
  - intros H. apply missing_field_None in E.
    rewrite (build_segment_well_formed _ _ _ E). by rewrite (IH _ H).
Qed.

(** One [list.insert] at a non-negative index that falls right after a
    block [pre] sitting at position [p]: the block grows by one. *)
Lemma list_insert_at_block (p : Z) (s : QueueSegment) (pre l : list QueueSegment) :
  0 <= p ->
  list_insert_at (p + len pre) s
    (take (Z.to_nat p) l ++ pre ++ drop (Z.to_nat p) l) =
  take (Z.to_nat p) l ++ (pre ++ [s]) ++ drop (Z.to_nat p) l.
Proof.
  intros Hp. unfold list_insert_at.
  assert (Hneg : (p + len pre <? 0) = false).
  { apply Z.ltb_ge. pose proof (len_nonneg pre). lia. }
  rewrite Hneg.
  set (j := Z.min _ _).
  assert (Hj : Z.to_nat j = length (take (Z.to_nat p) l ++ pre)).
  { subst j. unfold len. rewrite !length_app length_take length_drop. lia. }
  rewrite Hj (app_assoc _ pre) take_app_length drop_app_length.
  by rewrite -!app_assoc.
Qed.

Lemma insert_loop_block (p : Z) (new pre l : list QueueSegment) q :
  0 <= p ->
  segments q = take (Z.to_nat p) l ++ pre ++ drop (Z.to_nat p) l ->
  insert_loop p (len pre) new q =
  (set_segments (take (Z.to_nat p) l ++ (pre ++ new) ++ drop (Z.to_nat p) l) q,
   inr tt).
Proof.
  intros Hp. revert pre q.
  induction new as [|s new IH]; intros pre q Hq; simpl.
  - by rewrite app_nil_r -Hq set_segments_id.
  - unfold Py.bind. simpl.
    rewrite Hq list_insert_at_block //.
    replace (len pre + 1) with (len (pre ++ [s])) by (rewrite len_app; done).
    rewrite (IH (pre ++ [s])) //.
    by rewrite set_segments_twice -(app_assoc pre).
Qed.

Lemma insert_loop_spec (p : Z) (new : list QueueSegment) q :
  0 <= p ->
  insert_loop p 0 new q =
  (set_segments
     (take (Z.to_nat p) (segments q) ++ new ++ drop (Z.to_nat p) (segments q)) q,
   inr tt).
Proof.
  intros Hp.
  apply (insert_loop_block p new [] (segments q) q Hp).
  by rewrite take_drop.
Qed.

(** The resequencing loop over a list split as [pre ++ suf]: started at
    [len pre], it rewrites exactly the sequence fields of [suf]. *)
Lemma subscript_in_range {A} (l : list A) (i : nat) :
  (i < length l)%nat -> subscript l (Z.of_nat i) = Some i.
Proof.
  intros Hi. unfold subscript, len.
  assert (H1 : (0 <=? Z.of_nat i) = true) by (apply Z.leb_le; lia).
  assert (H2 : (Z.of_nat i <? Z.of_nat (length l)) = true) by (apply Z.ltb_lt; lia).
  by rewrite H1 H2 /= Nat2Z.id.
Qed.

Lemma assign_sequence_at (pre suf : list QueueSegment) s q :
  segments q = pre ++ s :: suf ->
  assign_sequence (len pre) q =
  (set_segments (pre ++ set_sequence (VInt (len pre)) s :: suf) q, inr tt).
Proof.
  intros Hq. unfold assign_sequence, Py.bind, Py.read, Py.write_segments.
  rewrite Hq. unfold len at 1. rewrite subscript_in_range.
  { rewrite length_app /=. lia. }
  simpl. by rewrite Hq -{1}(Nat.add_0_r (length pre)) alter_app_r.
Qed.

Lemma for_range_renumber (suf pre : list QueueSegment) q :
  segments q = pre ++ suf ->
  for_range (length suf) (len pre) assign_sequence q =
  (set_segments (pre ++ renumber (len pre) suf) q, inr tt).
Proof.
  revert pre q. induction suf as [|s suf IH]; intros pre q Hq; simpl.
  - by rewrite -Hq set_segments_id.
  - unfold Py.bind. rewrite (assign_sequence_at pre suf s q Hq).
    replace (len pre + 1) with (len (pre ++ [set_sequence (VInt (len pre)) s]))
      by (rewrite len_app; done).
    rewrite (IH (pre ++ [set_sequence (VInt (len pre)) s])).
    { by rewrite -app_assoc. }
    by rewrite set_segments_twice -app_assoc.
Qed.

Lemma _resequence_segments_spec (start : Z) q :
  0 <= start ->
  _resequence_segments start q =
  (set_segments
     (take (Z.to_nat start) (segments q) ++
      renumber start (drop (Z.to_nat start) (segments q))) q,
   inr tt).
Proof.
  intros Hs. unfold _resequence_segments, Py.bind, Py.read.
  destruct (decide (start <= len (segments q))) as [Hle|Hgt].
  - assert (Hn : Z.to_nat (len (segments q) - start) =
                 length (drop (Z.to_nat start) (segments q))).
    { unfold len in *. rewrite length_drop. lia. }
    assert (Hl : start = len (take (Z.to_nat start) (segments q))).
    { unfold len in *. rewrite length_take. lia. }
    rewrite Hn {2 4}Hl. apply for_range_renumber. by rewrite take_drop.
  - assert (Hn : Z.to_nat (len (segments q) - start) = 0%nat) by lia.
    rewrite Hn /=. unfold len in *.
    rewrite drop_ge; [lia|]. rewrite take_ge; [lia|].
    by rewrite app_nil_r set_segments_id.
Qed.

(** The effect of a non-empty, well-formed [insert_response]. *)
Lemma bind_returns {A B} (m : Py.M A) (k : A -> Py.M B) q q' a :
  m q = (q', inr a) -> Py.bind m k q = k a q'.
Proof. intros H. unfold Py.bind. by rewrite H. Qed.

Lemma bind_raises {A B} (m : Py.M A) (k : A -> Py.M B) q q' e :
  m q = (q', inl e) -> Py.bind m k q = (q', inl e).
Proof. intros H. unfold Py.bind. by rewrite H. Qed.

Lemma insert_pos_of_nonneg after q :
  0 <= current_position q -> 0 <= insert_pos_of after q.
Proof. unfold insert_pos_of. destruct after; [lia | intros _; apply len_nonneg]. Qed.

Lemma spliced_after_loops (p : Z) (new l : list QueueSegment) :
  0 <= p ->
  let l1 := take (Z.to_nat p) l ++ new ++ drop (Z.to_nat p) l in
  take (Z.to_nat (p + len new)) l1 ++
  renumber (p + len new) (drop (Z.to_nat (p + len new)) l1) =
  spliced p new l.
Proof.
  intros Hp. simpl. unfold spliced. set (n := Z.to_nat p).
  assert (Hlen : Z.to_nat (p + len new) =
                 (length (take n l ++ new) + (n - length l))%nat).
  { subst n. unfold len. rewrite length_app length_take. lia. }
  rewrite Hlen (app_assoc _ new).
  destruct (decide (n <= length l)%nat) as [Hle|Hgt].
  - replace (n - length l)%nat with 0%nat by lia. rewrite Nat.add_0_r.
    rewrite take_app_length drop_app_length. by rewrite -app_assoc.
  - rewrite (drop_ge l n); [lia|]. rewrite app_nil_r.
    rewrite take_ge; [lia|]. rewrite drop_ge; [lia|].
    simpl. by rewrite !app_nil_r.
Qed.

Lemma insert_response_spec utcnow rs after q :
  rs <> [] -> Forall well_formed rs -> 0 <= current_position q ->
  insert_response utcnow rs after q =
  (set_segments
     (spliced (insert_pos_of after q) (responses_of utcnow 0 rs) (segments q)) q,
   inr (insert_pos_of after q)).
Proof.
  intros Hne Hwf Hc. unfold insert_response.
  rewrite (bind_returns Py.read _ q q q) //.
  destruct rs as [|d rs]; [done|].
  fold (insert_pos_of after q).
  pose proof (insert_pos_of_nonneg after q Hc) as Hp.
  set (p := insert_pos_of after q) in *.
  set (new := responses_of utcnow 0 (d :: rs)).
  rewrite (bind_returns _ _ q q new).
  { by rewrite (build_responses_well_formed _ _ _ Hwf). }
  erewrite bind_returns; [|by apply insert_loop_spec].
  erewrite bind_returns;
    [|apply _resequence_segments_spec; pose proof (len_nonneg new); lia].
  unfold Py.ret. simpl segments.
  by rewrite set_segments_twice (spliced_after_loops p new (segments q) Hp).
Qed.

(** ** Reading the spliced list *)

Lemma lookup_spliced (p : Z) (new l : list QueueSegment) (i : nat) :
  0 <= p ->
  spliced p new l !! i =
  if bool_decide (i < Z.to_nat p `min` length l)%nat then l !! i
  else if bool_decide (i < Z.to_nat p `min` length l + length new)%nat
       then new !! (i - Z.to_nat p `min` length l)%nat
       else set_sequence (VInt (Z.of_nat i)) <$> l !! (i - length new)%nat.
Proof.
  intros Hp. unfold spliced. set (n := Z.to_nat p).
  assert (Htake : length (take n l) = (n `min` length l)%nat) by apply length_take.
  repeat case_bool_decide.
  - rewrite lookup_app_l; [lia|]. apply lookup_take_lt. lia.
  - rewrite lookup_app_r; [lia|]. rewrite lookup_app_l; [lia|]. by rewrite Htake.
  - rewrite lookup_app_r; [lia|]. rewrite lookup_app_r; [lia|].
    rewrite lookup_renumber lookup_drop Htake.
    destruct (decide (n <= length l)%nat) as [Hle|Hgt].
    + replace (n + (i - n `min` length l - length new))%nat
        with (i - length new)%nat by lia.
      destruct (l !! (i - length new)%nat); simpl; [|done].
      do 3 f_equal. unfold len. lia.
    + rewrite !lookup_ge_None_2; [lia..|done].
Qed.

Lemma lookup_spliced_before (p : Z) new l (i : nat) s :
  0 <= p -> (Z.of_nat i < p) -> l !! i = Some s -> spliced p new l !! i = Some s.
Proof.
  intros Hp Hi Hs. rewrite lookup_spliced //.
  apply lookup_lt_Some in Hs as Hlt. case_bool_decide; [done | lia].
Qed.

Lemma lookup_spliced_shifted (p : Z) new l (j : nat) s :
  0 <= p -> l !! (Z.to_nat p + j)%nat = Some s ->
  spliced p new l !! (Z.to_nat p + length new + j)%nat =
  Some (set_sequence (VInt (p + len new + Z.of_nat j)) s).
Proof.
  intros Hp Hs. rewrite lookup_spliced //.
  apply lookup_lt_Some in Hs as Hlt. repeat case_bool_decide; try lia.
  replace (Z.to_nat p + length new + j - length new)%nat
    with (Z.to_nat p + j)%nat by lia.
  rewrite Hs /=. do 3 f_equal. unfold len. lia.
Qed.

Lemma length_spliced (p : Z) new l :
  length (spliced p new l) = (length l + length new)%nat.
Proof.
  unfold spliced.
  rewrite !length_app length_renumber length_take length_drop. lia.
Qed.

(** ** Reachable states *)

Lemma reachable_weaken (P Q : call -> ConversationQueue -> Prop) oid q :
  (forall c q', P c q' -> Q c q') -> reachable P oid q -> reachable Q oid q.
Proof.
  intros HPQ. induction 1 as [|c q Hq IH Hc]; [constructor|].
  apply reachable_run; auto.
Qed.

Lemma advance_cursor q :
  current_position (advance q).1 = current_position q \/
  (current_position (advance q).1 = current_position q + 1 /\
   current_position q + 1 < len (segments q)).
Proof.
  unfold advance. destruct (Z.ltb_spec (current_position q) (len (segments q) - 1));
    simpl; [right; lia | by left].
Qed.

Lemma seek_cursor position q :
  current_position (seek position q).1 = current_position q \/
  (current_position (seek position q).1 = position /\
   0 <= position < len (segments q)).
Proof.
  unfold seek.
  destruct (Z.leb_spec 0 position), (Z.ltb_spec position (len (segments q)));
    simpl; auto.
Qed.

Lemma run_cursor_nonneg c q :
  0 <= current_position q -> 0 <= current_position (run c q).
Proof.
  intros Hq. destruct c as [segs|utcnow rs after| |position| |]; simpl.
  - destruct (load_overview_segments_frame segs q) as (_ & -> & _). done.
  - destruct (insert_response_frame utcnow rs after q) as (_ & -> & _). done.
  - destruct (advance_cursor q) as [->|[-> _]]; lia.
  - destruct (seek_cursor position q) as [->|[-> ?]]; lia.
  - done.
  - done.
Qed.

Lemma reachable_cursor_nonneg allowed oid q :
  reachable allowed oid q -> 0 <= current_position q.
Proof.
  induction 1 as [|c q Hq IH Hc]; [done|]. by apply run_cursor_nonneg.
Qed.

Lemma segment_of_sequence resp stamp d v :
  d !! "sequence" = Some v -> sequence (segment_of resp stamp d) = v.
Proof. intros H. unfold segment_of, dict_get. simpl. by rewrite H. Qed.

Lemma run_insert_empty utcnow after q : run (InsertResponse utcnow [] after) q = q.
Proof. done. Qed.

Lemma run_load_well_formed segs q :
  Forall well_formed segs ->
  run (LoadInitial segs) q = set_segments (map (segment_of false None) segs) q.
Proof. intros H. simpl. by rewrite load_overview_segments_well_formed. Qed.

Lemma run_insert_well_formed utcnow rs after q :
  rs <> [] -> Forall well_formed rs -> 0 <= current_position q ->
  run (InsertResponse utcnow rs after) q =
  set_segments
    (spliced (insert_pos_of after q) (responses_of utcnow 0 rs) (segments q)) q.
Proof. intros ? ? ?. simpl. by rewrite insert_response_spec. Qed.

Lemma presequenced_preserves c q :
  0 <= current_position q -> presequenced c q ->
  sequence_invariant q -> sequence_invariant (run c q).
Proof.
  intros Hc Hpre Hinv.
  destruct c as [segs|utcnow rs after| |position| |]; try done.
  - destruct Hpre as [Hwf Hpos]. rewrite run_load_well_formed //.
    intros i s. simpl. rewrite list_lookup_fmap.
    destruct (segs !! i) as [d|] eqn:Hd; simpl; [|done].
    intros [= <-]. apply segment_of_sequence. by rewrite (Hpos i d Hd).
  - destruct Hpre as [Hwf Hpos].
    destruct (decide (rs = [])) as [->|Hne]; [by rewrite run_insert_empty|].
    rewrite run_insert_well_formed //.
    pose proof (insert_pos_of_nonneg after q Hc) as Hp.
    intros i s. simpl. rewrite lookup_spliced //.
    repeat case_bool_decide.
    + apply Hinv.
    + rewrite lookup_responses_of.
      set (j := (i - _)%nat).
      destruct (rs !! j) as [d|] eqn:Hd; simpl; [|done].
      intros [= <-]. apply segment_of_sequence.
      rewrite (Hpos j d Hd). do 2 f_equal. unfold len. subst j. lia.
    + destruct (segments q !! _); simpl; [|done]. by intros [= <-].
Qed.

(** C1, amended: the sequence invariant holds in every state reachable from
    a fresh queue through loads and insertions of well-formed records that
    already carry, in their sequence field, the position the call puts them
    at.  The queue rewrites the sequence only of the segments that follow an
    inserted block. *)
Theorem sequence_invariant_presequenced oid q :
  reachable presequenced oid q -> sequence_invariant q.
Proof.
  induction 1 as [|c q Hq IH Hc].
  - intros i s. simpl. by rewrite lookup_nil.
  - apply presequenced_preserves; [|done..].
    by eapply reachable_cursor_nonneg.
Qed.

Lemma well_formed_overview_segments : Forall well_formed overview_segments.
Proof. compute_done. Qed.

Lemma well_formed_response_segments : Forall well_formed response_segments.
Proof. compute_done. Qed.

Lemma well_formed_presequenced_responses :
  Forall well_formed presequenced_responses.
Proof. compute_done. Qed.

Lemma positional_test_load : positional 0 overview_segments.
Proof. intros [|[|[|j]]] d; simpl; intros [= <-]; reflexivity. Qed.

Lemma positional_test_insert : positional 1 presequenced_responses.
Proof. intros [|[|j]] d; simpl; intros [= <-]; reflexivity. Qed.

Lemma sequence_invariant_presequenced_witness :
  sequence_invariant
    (run (InsertResponse test_clock presequenced_responses true) loaded_test_queue).
Proof.
  apply (sequence_invariant_presequenced "test_overview_001").
  apply reachable_run.
  - apply reachable_run; [apply reachable_init|].
    split; [apply well_formed_overview_segments | apply positional_test_load].
  - split; [apply well_formed_presequenced_responses | apply positional_test_insert].
Defined.

(** C1 as stated fails: after the test's load, inserting the test's
    responses (whose records carry 0 and 1) leaves sequence 0 at position 1. *)
Lemma sequence_invariant_counterexample :
  reachable structural "test_overview_001" after_test_insert /\
  map sequence (segments after_test_insert) =
    [VInt 0; VInt 0; VInt 1; VInt 3; VInt 4] /\
  ~ sequence_invariant after_test_insert.
Proof.
  split; [|split].
  - apply reachable_run; [apply reachable_run; [apply reachable_init|]|].
    + apply well_formed_overview_segments.
    + apply well_formed_response_segments.
  - by vm_compute.
  - intros H. by specialize (H 1%nat _ eq_refl).
Qed.

(** ** Insertion placement *)

(** C2, amended: on [s0, s1, s2] with the cursor at 0, inserting two
    well-formed records after the cursor returns 1 and leaves
    [s0, r0, r1, s1, s2] with the cursor at 0; r0 and r1 keep the sequence
    their records supplied, s1 and s2 get 3 and 4.  In general the segments
    after the inserted block, and only those, are renumbered to their new
    position, and with [insert_after_current] false the index is
    [len(segments)] and the new segments go to the end. *)
Theorem insertion_placement utcnow oid s0 s1 s2 paused r0 r1 :
  well_formed r0 -> well_formed r1 ->
  let q := three_segment_queue oid s0 s1 s2 paused in
  let n0 := segment_of true (Some (utcnow 0%nat)) r0 in
  let n1 := segment_of true (Some (utcnow 1%nat)) r1 in
  insert_response utcnow [r0; r1] true q =
    ({| overview_id := oid;
        segments := [s0; n0; n1; set_sequence (VInt 3) s1; set_sequence (VInt 4) s2];
        current_position := 0; playback_paused := paused |}, inr 1) /\
  r0 !! "sequence" = Some (sequence n0) /\
  r1 !! "sequence" = Some (sequence n1) /\
  (forall (q' : ConversationQueue) rs after,
     rs <> [] -> Forall well_formed rs -> 0 <= current_position q' ->
     let p := insert_pos_of after q' in
     let out := (insert_response utcnow rs after q').1 in
     (forall (i : nat) s,
        segments out !! i = Some s -> p + len rs <= Z.of_nat i ->
        sequence s = VInt (Z.of_nat i)) /\
     (forall (j : nat) d,
        rs !! j = Some d -> p <= len (segments q') ->
        exists s, segments out !! (Z.to_nat p + j)%nat = Some s /\
                  d !! "sequence" = Some (sequence s))) /\
  (forall (q' : ConversationQueue) rs,
     rs <> [] -> Forall well_formed rs -> 0 <= current_position q' ->
     insert_response utcnow rs false q' =
       (set_segments (segments q' ++ responses_of utcnow 0 rs) q',
        inr (len (segments q')))).
Proof.
  intros Hr0 Hr1 q n0 n1.
  assert (Hseq : forall resp stamp d, well_formed d ->
            d !! "sequence" = Some (sequence (segment_of resp stamp d))).
  { intros resp stamp d Hd. apply well_formed_lookups in Hd as (_ & _ & _ & [v Hv]).
    by rewrite (segment_of_sequence _ _ _ _ Hv). }
  split; [|split; [|split; [|split]]].
  - assert (Hwf : Forall well_formed [r0; r1])
      by auto using Forall_cons_2, Forall_nil_2.
    by rewrite insert_response_spec.
  - by apply Hseq.
  - by apply Hseq.
  - intros q' rs after Hne Hwf Hc p out. subst out.
    pose proof (insert_pos_of_nonneg after q' Hc) as Hp. fold p in Hp.
    rewrite insert_response_spec //. simpl. fold p. split.
    + intros i s. rewrite lookup_spliced //.
      rewrite length_responses_of. unfold len.
      repeat case_bool_decide; try lia.
      destruct (segments q' !! _); simpl; [|done]. by intros [= <-].
    + intros j d Hd Hle.
      exists (segment_of true (Some (utcnow (0 + j)%nat)) d). split.
      * rewrite lookup_spliced //. rewrite length_responses_of.
        apply lookup_lt_Some in Hd as Hj. unfold len in Hle.
        repeat case_bool_decide; try lia.
        rewrite lookup_responses_of.
        replace (Z.to_nat p + j - Z.to_nat p `min` length (segments q'))%nat
          with j by lia.
        by rewrite Hd.
      * apply Hseq. by eapply Forall_lookup_1.
  - intros q' rs Hne Hwf Hc. rewrite insert_response_spec //.
    unfold insert_pos_of, spliced, len. rewrite Nat2Z.id.
    rewrite take_ge // drop_ge //=. by rewrite app_nil_r.
Qed.

Lemma insertion_placement_witness :
  (insert_response test_clock response_segments true
     (three_segment_queue "test_overview_001"
        (segment_of false None (record "seg_0" "zoya" "Welcome to FSM design!" 0 3000 "/api/audio/seg_0"))
        (segment_of false None (record "seg_1" "ravi" "I'm excited to learn!" 1 2500 "/api/audio/seg_1"))
        (segment_of false None (record "seg_2" "zoya" "Let's start with basics." 2 2800 "/api/audio/seg_2"))
        false)).2 = inr 1.
Proof.
  pose proof (insertion_placement test_clock "test_overview_001"
    (segment_of false None (record "seg_0" "zoya" "Welcome to FSM design!" 0 3000 "/api/audio/seg_0"))
    (segment_of false None (record "seg_1" "ravi" "I'm excited to learn!" 1 2500 "/api/audio/seg_1"))
    (segment_of false None (record "seg_2" "zoya" "Let's start with basics." 2 2800 "/api/audio/seg_2"))
    false
    (record "resp_0" "ravi" "Great question!" 0 2000 "/api/audio/resp_0")
    (record "resp_1" "zoya" "Let me explain..." 1 3500 "/api/audio/resp_1")
    ltac:(compute_done) ltac:(compute_done)) as [H _].
  unfold response_segments. by rewrite H.
Defined.

(** C2 as stated fails: with the test's records, which carry 0 and 1, the
    inserted segments sit at positions 1 and 2 with sequence 0 and 1. *)
Lemma insertion_placement_counterexample :
  segments loaded_test_queue =
    map (segment_of false None) overview_segments /\
  current_position loaded_test_queue = 0 /\
  (insert_response test_clock response_segments true loaded_test_queue).2 = inr 1 /\
  map sequence
    (segments (insert_response test_clock response_segments true loaded_test_queue).1) =
    [VInt 0; VInt 0; VInt 1; VInt 3; VInt 4] /\
  [VInt 0; VInt 0; VInt 1; VInt 3; VInt 4] <>
    [VInt 0; VInt 1; VInt 2; VInt 3; VInt 4].
Proof. repeat split; by vm_compute. Qed.

(** ** The frame of an insertion *)

(** C10: a non-empty, well-formed insertion changes neither the cursor nor
    the pause flag; each segment below the computed insertion index stays
    where it was with all its fields; each segment that was at or after the
    index moves right by the number of inserted segments, in the same order,
    and only its sequence field is rewritten.  The cursor is taken to be
    non-negative, as it is in every reachable state. *)
Theorem insert_response_frame_property utcnow rs after q :
  rs <> [] -> Forall well_formed rs -> 0 <= current_position q ->
  let p := insert_pos_of after q in
  let out := (insert_response utcnow rs after q).1 in
  (insert_response utcnow rs after q).2 = inr p /\
  current_position out = current_position q /\
  playback_paused out = playback_paused q /\
  overview_id out = overview_id q /\
  length (segments out) = (length (segments q) + length rs)%nat /\
  (forall (i : nat) s,
     Z.of_nat i < p -> segments q !! i = Some s -> segments out !! i = Some s) /\
  (forall (j : nat) s,
     segments q !! (Z.to_nat p + j)%nat = Some s ->
     segments out !! (Z.to_nat p + length rs + j)%nat =
       Some (set_sequence (VInt (p + len rs + Z.of_nat j)) s)).
Proof.
  intros Hne Hwf Hc p out. subst out.
  pose proof (insert_pos_of_nonneg after q Hc) as Hp. fold p in Hp.
  rewrite insert_response_spec //. fold p. simpl.
  repeat split.
  - by rewrite length_spliced length_responses_of.
  - intros i s Hi Hs. by apply lookup_spliced_before.
  - intros j s Hs.
    rewrite -(length_responses_of utcnow 0 rs).
    rewrite (lookup_spliced_shifted _ _ _ _ s) //. unfold len.
    by rewrite length_responses_of.
Qed.

Lemma insert_response_frame_property_witness :
  current_position after_test_insert = current_position loaded_test_queue /\
  playback_paused after_test_insert = playback_paused loaded_test_queue.
Proof.
  pose proof (insert_response_frame_property test_clock response_segments true
    loaded_test_queue ltac:(done) well_formed_response_segments ltac:(done))
    as (_ & H1 & H2 & _).
  split; [exact H1 | exact H2].
Defined.

(** ** Malformed input *)

Lemma insert_response_raises utcnow rs after q k :
  first_missing rs = Some k ->
  insert_response utcnow rs after q = (q, inl (KeyError k)).
Proof.
  intros Hk. unfold insert_response.
  rewrite (bind_returns Py.read _ q q q) //.
  destruct rs as [|d rs]; [done|].
  erewrite bind_raises; [done|].
  by rewrite (build_responses_raises _ _ _ _ Hk).
Qed.

Lemma load_overview_segments_raises segs q k :
  first_missing segs = Some k ->
  (load_overview_segments segs q).2 = inl (KeyError k).
Proof.
  intros Hk. unfold load_overview_segments, Py.bind. simpl.
  pose proof (load_loop_raises segs (set_segments [] q) k Hk) as H.
  by destruct (load_loop segs (set_segments [] q)) as [q' [e|[]]].
Qed.

(** C3, amended: when some record lacks a required field, both calls raise
    a [KeyError] naming a required field that one of the records lacks (the
    first one missing from the first malformed record); [insert_response]
    leaves the whole queue as it was; [load_overview_segments] leaves the
    cursor, the pause flag and the identifier as they were. *)
Theorem malformed_input_rejected utcnow rs after q :
  ~ Forall well_formed rs ->
  exists k d,
    first_missing rs = Some k /\
    d ∈ rs /\ k ∈ required_fields /\ d !! k = None /\
    insert_response utcnow rs after q = (q, inl (KeyError k)) /\
    (load_overview_segments rs q).2 = inl (KeyError k) /\
    current_position (load_overview_segments rs q).1 = current_position q /\
    playback_paused (load_overview_segments rs q).1 = playback_paused q /\
    overview_id (load_overview_segments rs q).1 = overview_id q.
Proof.
  intros Hbad.
  destruct (malformed_first_missing rs Hbad) as [k Hk].
  destruct (first_missing_Some rs k Hk) as (d & Hd & Hreq & Hnone).
  destruct (load_overview_segments_frame rs q) as (Ho & Hc & Hp).
  exists k, d. repeat split; try done.
  - by apply insert_response_raises.
  - by apply load_overview_segments_raises.
Qed.

Lemma malformed_input_rejected_witness :
  exists k d,
    first_missing malformed_segments = Some k /\
    d ∈ malformed_segments /\ k ∈ required_fields /\ d !! k = None /\
    insert_response test_clock malformed_segments true loaded_test_queue =
      (loaded_test_queue, inl (KeyError k)) /\
    (load_overview_segments malformed_segments loaded_test_queue).2 =
      inl (KeyError k) /\
    current_position (load_overview_segments malformed_segments loaded_test_queue).1 =
      current_position loaded_test_queue /\
    playback_paused (load_overview_segments malformed_segments loaded_test_queue).1 =
      playback_paused loaded_test_queue /\
    overview_id (load_overview_segments malformed_segments loaded_test_queue).1 =
      overview_id loaded_test_queue.
Proof.
  apply (malformed_input_rejected test_clock malformed_segments true
           loaded_test_queue).
  apply (bool_decide_unpack _). by vm_compute.
Defined.

(** C3 as stated fails for the load: a failing load has already replaced
    the three loaded segments by the one record built before the raise. *)
Lemma malformed_load_counterexample :
  ~ Forall well_formed malformed_segments /\
  (load_overview_segments malformed_segments loaded_test_queue).2 =
    inl (KeyError "text") /\
  map segment_id (segments loaded_test_queue) =
    [VStr "seg_0"; VStr "seg_1"; VStr "seg_2"] /\
  map segment_id
    (segments (load_overview_segments malformed_segments loaded_test_queue).1) =
    [VStr "seg_0"] /\
  segments (load_overview_segments malformed_segments loaded_test_queue).1 <>
    segments loaded_test_queue.
Proof.
  split; [|repeat split; by vm_compute].
  apply (bool_decide_unpack _). by vm_compute.
Qed.

(** ** Empty insertion *)

(** C4: inserting an empty list changes nothing, whichever placement is
    asked for, and returns the cursor as it was; with placement after the
    cursor that value differs from the insertion index that was not
    computed. *)
Theorem empty_insert_noop utcnow after q :
  insert_response utcnow [] after q = (q, inr (current_position q)) /\
  segments (insert_response utcnow [] after q).1 = segments q /\
  current_position (insert_response utcnow [] after q).1 = current_position q /\
  playback_paused (insert_response utcnow [] after q).1 = playback_paused q /\
  current_position q <> insert_pos_of true q.
Proof. repeat split; try done. unfold insert_pos_of. lia. Qed.

(** ** The cursor *)

Lemma insert_response_length utcnow rs after q :
  0 <= current_position q ->
  (length (segments q) <= length (segments (insert_response utcnow rs after q).1))%nat.
Proof.
  intros Hc. destruct rs as [|d rs]; [done|].
  destruct (first_missing (d :: rs)) as [k|] eqn:Hk.
  - by rewrite (insert_response_raises _ _ _ _ _ Hk).
  - apply first_missing_None in Hk.
    rewrite insert_response_spec //. simpl. rewrite length_spliced. lia.
Qed.

Lemma load_at_start_preserves c q :
  load_at_start c q -> cursor_invariant q -> cursor_invariant (run c q).
Proof.
  unfold cursor_invariant.
  intros Hc Hq. destruct c as [segs|utcnow rs after| |position| |]; simpl in *.
  - destruct (load_overview_segments_frame segs q) as (_ & -> & _).
    rewrite Hc. split; [done | apply len_nonneg].
  - destruct (insert_response_frame utcnow rs after q) as (_ & -> & _).
    pose proof (insert_response_length utcnow rs after q (proj1 Hq)).
    unfold len in *. lia.
  - unfold advance.
    destruct (Z.ltb_spec (current_position q) (len (segments q) - 1)); simpl; lia.
  - unfold seek.
    destruct (Z.leb_spec 0 position), (Z.ltb_spec position (len (segments q)));
      simpl; lia.
  - done.
  - done.
Qed.

(** C5, amended: the cursor is never negative in any state reachable through
    the six calls, whatever their arguments and whether or not they raise;
    and it stays within [0, len(segments)] in every state reachable through
    call sequences whose loads happen with the cursor at 0.  A load replaces
    the list and leaves the cursor alone. *)
Theorem cursor_invariant_reachable oid :
  (forall q, reachable any_call oid q -> 0 <= current_position q) /\
  (forall q, reachable load_at_start oid q -> cursor_invariant q).
Proof.
  split.
  - intros q. apply reachable_cursor_nonneg.
  - induction 1 as [|c q Hq IH Hc].
    + unfold cursor_invariant. simpl. done.
    + by apply load_at_start_preserves.
Qed.

Lemma cursor_invariant_reachable_witness :
  0 <= current_position reloaded_empty /\ cursor_invariant after_test_insert.
Proof.
  destruct (cursor_invariant_reachable "test_overview_001") as [Hneg Hinv].
  split.
  - apply Hneg. repeat (apply reachable_run; [|done]). apply reachable_init.
  - apply Hinv. repeat (apply reachable_run; [|done]). apply reachable_init.
Defined.

(** C5 as stated fails: after a seek to position 2, a reload with an empty
    list leaves the cursor at 2 over no segments. *)
Lemma cursor_invariant_counterexample :
  reachable any_call "test_overview_001" reloaded_empty /\
  current_position reloaded_empty = 2 /\
  len (segments reloaded_empty) = 0 /\
  ~ cursor_invariant reloaded_empty.
Proof.
  split; [|split; [|split]].
  - repeat (apply reachable_run; [|done]). apply reachable_init.
  - by vm_compute.
  - by vm_compute.
  - unfold cursor_invariant. vm_compute. intros [_ H]. by apply H.
Qed.

Lemma advance_cases q :
  ((advance q).2 = true <-> current_position q < len (segments q) - 1) /\
  (advance q).1 =
    (if (advance q).2 then set_current_position (current_position q + 1) q else q) /\
  segments (advance q).1 = segments q /\
  playback_paused (advance q).1 = playback_paused q /\
  ((advance q).2 = false \/
   current_position (advance q).1 < len (segments (advance q).1)) /\
  (current_position q = len (segments q) - 1 -> advance q = (q, false)) /\
  (0 <= current_position q -> segments q = [] -> advance q = (q, false)).
Proof.
  unfold advance.
  destruct (Z.ltb_spec (current_position q) (len (segments q) - 1)) as [Hlt|Hge];
    simpl.
  - split; [done|]. do 3 (split; [done|]). split; [right; lia|].
    split; [lia|]. intros Hc Hnil. rewrite Hnil in Hlt. unfold len in Hlt. simpl in Hlt. lia.
  - split; [split; [done | lia]|]. do 3 (split; [done|]). split; [by left|].
    by split.
Qed.

Lemma advance_fields q :
  (current_position q < len (segments q) - 1 ->
     (advance q).2 = true /\
     current_position (advance q).1 = current_position q + 1) /\
  (~ current_position q < len (segments q) - 1 ->
     (advance q).2 = false /\
     current_position (advance q).1 = current_position q) /\
  overview_id (advance q).1 = overview_id q.
Proof.
  unfold advance.
  destruct (Z.ltb_spec (current_position q) (len (segments q) - 1)) as [Hlt|Hge];
    simpl; (split; [|split]); try done; intros; lia.
Qed.

(** C6: [advance] succeeds exactly when the cursor is below [len - 1]; a
    success adds one to the cursor and touches nothing else, a failure
    changes nothing; so a success never lands on [len(segments)].  At
    the last index, and on an empty queue, it fails. *)
Theorem advance_boundary q :
  ((advance q).2 = true <-> current_position q < len (segments q) - 1) /\
  (advance q).1 =
    (if (advance q).2 then set_current_position (current_position q + 1) q else q) /\
  segments (advance q).1 = segments q /\
  playback_paused (advance q).1 = playback_paused q /\
  ((advance q).2 = false \/
   current_position (advance q).1 < len (segments (advance q).1)) /\
  (current_position q = len (segments q) - 1 -> advance q = (q, false)) /\
  (0 <= current_position q -> segments q = [] -> advance q = (q, false)) /\
  (current_position q < len (segments q) - 1 ->
     (advance q).2 = true /\
     current_position (advance q).1 = current_position q + 1) /\
  (~ current_position q < len (segments q) - 1 ->
     (advance q).2 = false /\
     current_position (advance q).1 = current_position q) /\
  overview_id (advance q).1 = overview_id q.
Proof.
  destruct (advance_cases q) as (H1 & H2 & H3 & H4 & H5 & H6 & H7).
  destruct (advance_fields q) as (N1 & N2 & N3).
  repeat (split; [assumption|]). assumption.
Qed.

Lemma advance_boundary_witness :
  advance (run (Seek 2) loaded_test_queue) = (run (Seek 2) loaded_test_queue, false) /\
  advance (init "test_overview_001") = (init "test_overview_001", false) /\
  ((advance {| overview_id := "test_overview_001";
               segments := segments loaded_test_queue;
               current_position := 1; playback_paused := false |}).2 = true /\
   current_position
     (advance {| overview_id := "test_overview_001";
                 segments := segments loaded_test_queue;
                 current_position := 1; playback_paused := false |}).1 = 1 + 1) /\
  ((advance {| overview_id := "test_overview_001";
               segments := segments loaded_test_queue;
               current_position := 2; playback_paused := false |}).2 = false /\
   current_position
     (advance {| overview_id := "test_overview_001";
                 segments := segments loaded_test_queue;
                 current_position := 2; playback_paused := false |}).1 = 2).
Proof.
  split; [|split; [|split]].
  - destruct (advance_boundary (run (Seek 2) loaded_test_queue))
      as (_ & _ & _ & _ & _ & Hlast & _).
    apply Hlast. by vm_compute.
  - destruct (advance_boundary (init "test_overview_001"))
      as (_ & _ & _ & _ & _ & _ & Hempty & _).
    apply Hempty; by vm_compute.
  - destruct (advance_boundary
                {| overview_id := "test_overview_001";
                   segments := segments loaded_test_queue;
                   current_position := 1; playback_paused := false |})
      as (_ & _ & _ & _ & _ & _ & _ & Hmove & _).
    apply Hmove. by vm_compute.
  - destruct (advance_boundary
                {| overview_id := "test_overview_001";
                   segments := segments loaded_test_queue;
                   current_position := 2; playback_paused := false |})
      as (_ & _ & _ & _ & _ & _ & _ & _ & Hstay & _).
    apply Hstay. by vm_compute.
Defined.

Lemma seek_cases position q :
  ((seek position q).2 = true <-> 0 <= position < len (segments q)) /\
  (seek position q).1 =
    (if (seek position q).2 then set_current_position position q else q) /\
  segments (seek position q).1 = segments q /\
  playback_paused (seek position q).1 = playback_paused q /\
  seek (-1) q = (q, false) /\
  seek (len (segments q)) q = (q, false) /\
  (segments q = [] -> seek position q = (q, false)) /\
  (segments q <> [] -> seek 0 q = (set_current_position 0 q, true)).
Proof.
  unfold seek.
  rewrite Z.ltb_irrefl andb_false_r. simpl.
  assert (Hzero : segments q <> [] ->
            (if (0 <? len (segments q)) then (set_current_position 0 q, true)
             else (q, false)) = (set_current_position 0 q, true)).
  { intros Hne. destruct (segments q); [done|]. by simpl. }
  destruct (Z.leb_spec 0 position) as [H0|H0],
           (Z.ltb_spec position (len (segments q))) as [H1|H1];
    simpl; (split; [split; [done || lia | done || lia]|]);
    do 5 (split; [done|]); (split; [|done]).
  all: try done.
  intros Hnil. rewrite Hnil in H1. unfold len in H1. simpl in H1. lia.
Qed.

Lemma seek_fields position q :
  (0 <= position < len (segments q) ->
     (seek position q).2 = true /\
     current_position (seek position q).1 = position) /\
  (~ 0 <= position < len (segments q) ->
     (seek position q).2 = false /\
     current_position (seek position q).1 = current_position q) /\
  overview_id (seek position q).1 = overview_id q.
Proof.
  unfold seek.
  destruct (Z.leb_spec 0 position) as [H0|H0],
           (Z.ltb_spec position (len (segments q))) as [H1|H1];
    simpl; (split; [|split]); try done; intros; lia.
Qed.

Lemma seek_zero_fields q :
  segments q <> [] ->
  (seek 0 q).2 = true /\ current_position (seek 0 q).1 = 0.
Proof.
  intros Hne. apply seek_fields.
  destruct (segments q); [done|]. unfold len. simpl. lia.
Qed.

(** C7: [seek] succeeds exactly when [0 <= position < len(segments)]; a
    success makes [current_position] equal to the position and touches
    nothing else, a failure changes nothing.  So [seek(-1)],
    [seek(len(segments))] and any seek on an empty queue fail, and [seek(0)]
    on a non-empty queue succeeds and leaves the cursor at 0. *)
Theorem seek_boundary position q :
  ((seek position q).2 = true <-> 0 <= position < len (segments q)) /\
  (0 <= position < len (segments q) ->
     (seek position q).2 = true /\
     current_position (seek position q).1 = position) /\
  (~ 0 <= position < len (segments q) ->
     (seek position q).2 = false /\
     current_position (seek position q).1 = current_position q) /\
  overview_id (seek position q).1 = overview_id q /\
  (seek position q).1 =
    (if (seek position q).2 then set_current_position position q else q) /\
  segments (seek position q).1 = segments q /\
  playback_paused (seek position q).1 = playback_paused q /\
  seek (-1) q = (q, false) /\
  seek (len (segments q)) q = (q, false) /\
  (segments q = [] -> seek position q = (q, false)) /\
  (segments q <> [] -> seek 0 q = (set_current_position 0 q, true)) /\
  (segments q <> [] ->
     (seek 0 q).2 = true /\ current_position (seek 0 q).1 = 0).
Proof.
  destruct (seek_cases position q) as (H1 & H2 & H3 & H4 & H5 & H6 & H7 & H8).
  destruct (seek_fields position q) as (N1 & N2 & N3).
  pose proof (seek_zero_fields q) as N4.
  repeat (split; [assumption|]). assumption.
Qed.

Lemma seek_boundary_witness :
  ((seek 2 loaded_test_queue).2 = true /\
   current_position (seek 2 loaded_test_queue).1 = 2) /\
  ((seek 3 (seek 2 loaded_test_queue).1).2 = false /\
   current_position (seek 3 (seek 2 loaded_test_queue).1).1 =
     current_position (seek 2 loaded_test_queue).1) /\
  seek 5 (init "test_overview_001") = (init "test_overview_001", false) /\
  ((seek 0 (seek 2 loaded_test_queue).1).2 = true /\
   current_position (seek 0 (seek 2 loaded_test_queue).1).1 = 0).
Proof.
  split; [|split; [|split]].
  - destruct (seek_boundary 2 loaded_test_queue) as (_ & Hmove & _).
    apply Hmove. by vm_compute.
  - destruct (seek_boundary 3 (seek 2 loaded_test_queue).1) as (_ & _ & Hstay & _).
    apply Hstay. vm_compute. intros [_ H]. discriminate H.
  - destruct (seek_boundary 5 (init "test_overview_001"))
      as (_ & _ & _ & _ & _ & _ & _ & _ & _ & Hempty & _).
    apply Hempty. by vm_compute.
  - destruct (seek_boundary 0 (seek 2 loaded_test_queue).1)
      as (_ & _ & _ & _ & _ & _ & _ & _ & _ & _ & _ & Hzero).
    apply Hzero. by vm_compute.
Defined.

(** ** The state report *)

(** C8, amended: the remaining count reported by [get_queue_state] is
    [total_segments - current_position - 1], not clamped; it agrees with
    [max(0, total - position - 1)] exactly when the cursor is below the
    total, and is negative otherwise (-1 on a fresh queue). *)
Theorem remaining_segments_unclamped q :
  let st := get_queue_state q in
  state_total_segments st = len (segments q) /\
  state_current_position st = current_position q /\
  state_remaining_segments st =
    state_total_segments st - state_current_position st - 1 /\
  (state_remaining_segments st =
     Z.max 0 (state_total_segments st - state_current_position st - 1) <->
   state_current_position st < state_total_segments st) /\
  (state_remaining_segments st < 0 <->
   state_total_segments st <= state_current_position st).
Proof.
  simpl. unfold get_remaining_segments. repeat split; lia.
Qed.

(** C8 as stated fails: a fresh queue reports -1 remaining segments. *)
Lemma remaining_segments_counterexample :
  state_remaining_segments (get_queue_state (init "test_overview_001")) = -1 /\
  Z.max 0 (state_total_segments (get_queue_state (init "test_overview_001")) -
           state_current_position (get_queue_state (init "test_overview_001")) - 1) = 0.
Proof. split; by vm_compute. Qed.

(** ** The registry *)

(** C9: [get_conversation_queue] on a registered id returns the registered
    object and changes nothing, also after the object was mutated through
    its reference; on an unregistered id it allocates a fresh empty queue (no
    segments, cursor 0, not paused), registers it, leaves every other object
    and mapping alone, and later calls return that same object.
    [clear_queue] deletes the mapping of a registered id and leaves the
    others; on an unregistered id it changes nothing. *)
Theorem registry_contract oid (w : Registry) :
  (forall ref, _queues w !! oid = Some ref ->
     get_conversation_queue oid w = (w, ref)) /\
  (forall ref A (m : Py.M A), _queues w !! oid = Some ref ->
     get_conversation_queue oid (invoke ref m w).1 = ((invoke ref m w).1, ref)) /\
  (_queues w !! oid = None ->
     let w' := (get_conversation_queue oid w).1 in
     let ref := (get_conversation_queue oid w).2 in
     (ref ∉ dom (objects w)) /\
     objects w' !! ref =
       Some {| overview_id := oid; segments := []; current_position := 0;
               playback_paused := false |} /\
     _queues w' !! oid = Some ref /\
     (forall r q, objects w !! r = Some q -> objects w' !! r = Some q) /\
     (forall o, o <> oid -> _queues w' !! o = _queues w !! o) /\
     get_conversation_queue oid w' = (w', ref)) /\
  (forall ref, _queues w !! oid = Some ref ->
     objects (clear_queue oid w) = objects w /\
     _queues (clear_queue oid w) = delete oid (_queues w) /\
     _queues (clear_queue oid w) !! oid = None /\
     (forall o, o <> oid -> _queues (clear_queue oid w) !! o = _queues w !! o)) /\
  (_queues w !! oid = None -> clear_queue oid w = w).
Proof.
  split; [|split; [|split; [|split]]].
  - intros ref H. unfold get_conversation_queue. by rewrite H.
  - intros ref A m H. unfold get_conversation_queue, invoke.
    destruct (objects w !! ref); simpl; by rewrite H.
  - intros H. unfold get_conversation_queue. rewrite H. simpl.
    set (ref := fresh (dom (objects w))).
    assert (Hfresh : ref ∉ dom (objects w)) by apply is_fresh.
    split; [done|]. split; [by rewrite lookup_insert_eq|].
    split; [by rewrite lookup_insert_eq|]. split; [|split].
    + intros r q Hr. rewrite lookup_insert_ne //.
      intros <-. apply Hfresh. apply elem_of_dom. by eexists.
    + intros o Ho. by rewrite lookup_insert_ne.
    + by rewrite lookup_insert_eq.
  - intros ref H. unfold clear_queue. rewrite H. simpl.
    split; [done|]. split; [done|]. split; [by rewrite lookup_delete_eq|].
    intros o Ho. by rewrite lookup_delete_ne.
  - intros H. unfold clear_queue. by rewrite H.
Qed.

Lemma registry_contract_witness :
  clear_queue "test_overview_001" empty_registry = empty_registry /\
  get_conversation_queue "test_overview_001"
    (get_conversation_queue "test_overview_001" empty_registry).1 =
  get_conversation_queue "test_overview_001" empty_registry.
Proof.
  destruct (registry_contract "test_overview_001" empty_registry)
    as (_ & _ & Hnew & _ & Hclear).
  split.
  - apply Hclear. by vm_compute.
  - assert (Hnone : _queues empty_registry !! "test_overview_001" = None)
      by (by vm_compute).
    destruct (Hnew Hnone) as (_ & _ & _ & _ & _ & Hget).
    rewrite Hget. by destruct (get_conversation_queue _ _).
Defined.

(** ** Reading the queue *)

Lemma subscript_nonneg {A} (l : list A) (i : Z) :
  0 <= i -> i < len l -> subscript l i = Some (Z.to_nat i).
Proof.
  intros H0 H1. unfold subscript.
  assert (Ha : (0 <=? i) = true) by by apply Z.leb_le.
  assert (Hb : (i <? len l) = true) by by apply Z.ltb_lt.
  by rewrite Ha Hb.
Qed.

Lemma get_next_segment_nonneg q :
  0 <= current_position q ->
  get_next_segment q = inr (segments q !! Z.to_nat (current_position q)).
Proof.
  intros Hc. unfold get_next_segment.
  destruct (Z.leb_spec (len (segments q)) (current_position q)) as [Hge|Hlt].
  - rewrite lookup_ge_None_2 //. unfold len in Hge. lia.
  - by rewrite subscript_nonneg.
Qed.

(** X1: with a non-negative cursor [get_next_segment] never raises; it
    returns the segment at the cursor, and [None] exactly when the cursor is
    at or past the end.  It raises [IndexError] exactly when the cursor is
    below [-len(segments)]. *)
Theorem get_next_segment_spec q :
  (0 <= current_position q ->
     get_next_segment q = inr (segments q !! Z.to_nat (current_position q)) /\
     (get_next_segment q = inr None <-> len (segments q) <= current_position q)) /\
  (get_next_segment q = inl IndexError <->
     current_position q < - len (segments q)).
Proof.
  split.
  - intros Hc. rewrite get_next_segment_nonneg //. split; [done|]. split.
    + intros [= Hnone]. apply lookup_ge_None_1 in Hnone. unfold len. lia.
    + intros Hge. rewrite lookup_ge_None_2 //. unfold len in Hge. lia.
  - unfold get_next_segment. pose proof (len_nonneg (segments q)) as Hlen.
    destruct (Z.leb_spec (len (segments q)) (current_position q)) as [Hge|Hlt].
    + split; [done | lia].
    + unfold subscript.
      destruct (Z.leb_spec 0 (current_position q)),
               (Z.ltb_spec (current_position q) (len (segments q))),
               (Z.leb_spec (- len (segments q)) (current_position q)),
               (Z.ltb_spec (current_position q) 0); simpl;
        split; try done; try lia.
Qed.

Lemma get_next_segment_spec_witness :
  get_next_segment loaded_test_queue =
    inr (segments loaded_test_queue !! 0%nat) /\
  get_next_segment (init "test_overview_001") = inr None.
Proof.
  split.
  - destruct (get_next_segment_spec loaded_test_queue) as [H _].
    apply H. by vm_compute.
  - destruct (get_next_segment_spec (init "test_overview_001")) as [H _].
    destruct (H ltac:(done)) as [_ Hnone]. apply Hnone. by vm_compute.
Defined.

Lemma find_segment_Some sid l s :
  find_segment sid l = Some s <->
  exists i : nat,
    l !! i = Some s /\ py_eq (segment_id s) sid = true /\
    forall (j : nat) s', (j < i)%nat -> l !! j = Some s' ->
                         py_eq (segment_id s') sid = false.
Proof.
  induction l as [|x l IH]; simpl.
  - split; [done|]. by intros (i & Hi & _).
  - destruct (py_eq (segment_id x) sid) eqn:Hx.
    + split.
      * intros [= <-]. exists 0%nat. split; [done|]. split; [done|]. lia.
      * intros ([|i] & Hi & Hs & Hfirst).
        { simpl in Hi. by injection Hi as ->. }
        specialize (Hfirst 0%nat x ltac:(lia) eq_refl). congruence.
    + rewrite IH. split.
      * intros (i & Hi & Hs & Hfirst). exists (S i). split; [done|]. split; [done|].
        intros [|j] s' Hj Hs'.
        { simpl in Hs'. by injection Hs' as <-. }
        apply (Hfirst j); [lia | done].
      * intros ([|i] & Hi & Hs & Hfirst).
        { simpl in Hi. injection Hi as ->. congruence. }
        exists i. split; [done|]. split; [done|].
        intros j s' Hj Hs'. apply (Hfirst (S j)); [lia | done].
Qed.

Lemma find_segment_None sid l :
  find_segment sid l = None <->
  Forall (fun s => py_eq (segment_id s) sid = false) l.
Proof.
  induction l as [|x l IH]; simpl.
  - split; auto.
  - rewrite Forall_cons.
    destruct (py_eq (segment_id x) sid) eqn:Hx; [|rewrite IH]; naive_solver.
Qed.

Lemma py_eq_refl v : py_eq v v = true.
Proof.
  destruct v as [|b|z|t]; simpl; try done.
  - by destruct b.
  - apply Z.eqb_refl.
  - by apply bool_decide_eq_true_2.
Qed.

(** X2: [get_segment_by_id] returns the first segment whose id equals the
    given one in Python's sense (so it also finds an id [True] when asked
    for 1), and [None] exactly when no segment has such an id; a segment is
    always found under its own id unless an earlier one has an equal id. *)
Theorem get_segment_by_id_first_match sid q :
  (forall s,
     get_segment_by_id sid q = Some s <->
     exists i : nat,
       segments q !! i = Some s /\ py_eq (segment_id s) sid = true /\
       forall (j : nat) s', (j < i)%nat -> segments q !! j = Some s' ->
                            py_eq (segment_id s') sid = false) /\
  (get_segment_by_id sid q = None <->
     Forall (fun s => py_eq (segment_id s) sid = false) (segments q)) /\
  (forall s, s ∈ segments q -> segment_id s = sid ->
             is_Some (get_segment_by_id sid q)).
Proof.
  unfold get_segment_by_id. split; [|split].
  - intros s. apply find_segment_Some.
  - apply find_segment_None.
  - intros s Hs Hid.
    destruct (find_segment sid (segments q)) eqn:E; [done|].
    apply find_segment_None in E. rewrite Forall_forall in E.
    specialize (E s Hs). rewrite Hid py_eq_refl in E. done.
Qed.

Lemma get_segment_by_id_first_match_witness :
  is_Some (get_segment_by_id (VStr "seg_1") loaded_test_queue).
Proof.
  destruct (get_segment_by_id_first_match (VStr "seg_1") loaded_test_queue)
    as (_ & _ & H).
  apply (H (segment_of false None
              (record "seg_1" "ravi" "I'm excited to learn!" 1 2500 "/api/audio/seg_1"))).
  - apply list_elem_of_lookup. by exists 1%nat.
  - done.
Defined.

(** ** Pause and resume *)










(** ** Walking the queue *)

Lemma advance_times_frame k q :
  segments (advance_times k q) = segments q /\
  playback_paused (advance_times k q) = playback_paused q /\
  overview_id (advance_times k q) = overview_id q.
Proof.
  revert q. induction k as [|k IH]; intros q; simpl; [done|].
  destruct (IH (advance q).1) as (-> & -> & ->).
  unfold advance. by destruct (_ <? _).
Qed.

(** X4: [k] calls of [advance] from a cursor at or before the last index
    leave the cursor at [min(cursor + k, len - 1)]: playback walks forward
    one segment per call and then stays on the last segment.  From a cursor
    past the last index they change nothing.  The list is never touched. *)
Theorem advance_times_cursor k q :
  segments (advance_times k q) = segments q /\
  (current_position q <= len (segments q) - 1 ->
     current_position (advance_times k q) =
       Z.min (current_position q + Z.of_nat k) (len (segments q) - 1)) /\
  (len (segments q) - 1 < current_position q -> advance_times k q = q).
Proof.
  split; [apply advance_times_frame|]. split.
  - revert q. induction k as [|k IH]; intros q Hq; simpl; [lia|].
    unfold advance.
    destruct (Z.ltb_spec (current_position q) (len (segments q) - 1)) as [Hlt|Hge];
      simpl.
    + rewrite IH; simpl; lia.
    + rewrite IH; lia.
  - revert q. induction k as [|k IH]; intros q Hq; simpl; [done|].
    unfold advance.
    destruct (Z.ltb_spec (current_position q) (len (segments q) - 1)) as [Hlt|Hge];
      simpl; [lia | by apply IH].
Qed.

Lemma advance_times_cursor_witness :
  current_position (advance_times 5 loaded_test_queue) = 2.
Proof.
  destruct (advance_times_cursor 5 loaded_test_queue) as (_ & H & _).
  rewrite H; by vm_compute.
Defined.

(** X5: a successful [seek] makes [get_next_segment] return the segment at
    the sought position, which exists; a failed [seek] leaves what
    [get_next_segment] returns unchanged. *)
Theorem seek_then_next position q :
  (0 <= position < len (segments q) ->
     exists s, segments q !! Z.to_nat position = Some s /\
               get_next_segment (seek position q).1 = inr (Some s)) /\
  ((seek position q).2 = false ->
     get_next_segment (seek position q).1 = get_next_segment q).
Proof.
  split.
  - intros [H0 H1]. unfold seek.
    assert (Ha : (0 <=? position) = true) by by apply Z.leb_le.
    assert (Hb : (position <? len (segments q)) = true) by by apply Z.ltb_lt.
    rewrite Ha Hb. simpl.
    destruct (lookup_lt_is_Some_2 (segments q) (Z.to_nat position)) as [s Hs].
    { unfold len in H1. lia. }
    exists s. split; [done|].
    rewrite get_next_segment_nonneg //. simpl. by rewrite Hs.
  - unfold seek. by destruct (_ && _).
Qed.

Lemma seek_then_next_witness :
  exists s, segments loaded_test_queue !! Z.to_nat 2 = Some s /\
            get_next_segment (seek 2 loaded_test_queue).1 = inr (Some s).
Proof.
  destruct (seek_then_next 2 loaded_test_queue) as [H _].
  apply H. by vm_compute.
Defined.

(** ** The state report and a reload from it *)

Lemma to_dict_lookups s :
  to_dict s !! "segment_id" = Some (segment_id s) /\
  to_dict s !! "speaker" = Some (speaker s) /\
  to_dict s !! "text" = Some (text s) /\
  to_dict s !! "sequence" = Some (sequence s) /\
  to_dict s !! "duration_ms" = Some (duration_ms s) /\
  to_dict s !! "audio_url" = Some (audio_url s) /\
  to_dict s !! "is_response" = Some (VBool (is_response s)) /\
  to_dict s !! "inserted_at" = Some (value_of_option (inserted_at s)).
Proof. unfold to_dict. repeat split; by simplify_map_eq. Qed.

Lemma to_dict_inj s1 s2 : to_dict s1 = to_dict s2 -> s1 = s2.
Proof.
  intros H.
  destruct (to_dict_lookups s1) as (A1 & A2 & A3 & A4 & A5 & A6 & A7 & A8).
  destruct (to_dict_lookups s2) as (B1 & B2 & B3 & B4 & B5 & B6 & B7 & B8).
  rewrite H in A1, A2, A3, A4, A5, A6, A7, A8.
  destruct s1 as [a1 a2 a3 a4 a5 a6 a7 a8], s2 as [b1 b2 b3 b4 b5 b6 b7 b8].
  simpl in *.
  assert (a8 = b8) by (destruct a8, b8; simpl in *; congruence).
  congruence.
Qed.

Lemma cons_eq_inv {A} (a b : A) (l k : list A) :
  a :: l = b :: k -> a = b /\ l = k.
Proof. by intros [= -> ->]. Qed.

Lemma to_dict_list_inj (l1 l2 : list QueueSegment) :
  to_dict <$> l1 = to_dict <$> l2 -> l1 = l2.
Proof.
  revert l2. induction l1 as [|s1 l1 IH]; intros [|s2 l2] Hl; try done.
  rewrite !fmap_cons in Hl. apply cons_eq_inv in Hl as [Hs Hl].
  f_equal; [by apply to_dict_inj | by apply IH].
Qed.

(** X6: the report of [get_queue_state] determines the queue: two queues
    with the same report have the same identifier, segments (every field of
    every segment, in order), cursor and pause flag; and the reported total
    is the number of reported segments. *)
Theorem get_queue_state_faithful q1 q2 :
  state_total_segments (get_queue_state q1) =
    len (state_segments (get_queue_state q1)) /\
  (get_queue_state q1 = get_queue_state q2 -> q1 = q2).
Proof.
  split.
  - simpl. unfold len. by rewrite length_fmap.
  - intros H. destruct q1 as [o1 l1 c1 p1], q2 as [o2 l2 c2 p2].
    unfold get_queue_state in H. simpl in H.
    injection H as Ho _ Hc _ Hp Hl. subst.
    f_equal. by apply to_dict_list_inj.
Qed.

Lemma get_queue_state_faithful_witness :
  set_current_position 0 (seek 2 loaded_test_queue).1 = loaded_test_queue.
Proof.
  destruct (get_queue_state_faithful
              (set_current_position 0 (seek 2 loaded_test_queue).1)
              loaded_test_queue) as [_ H].
  apply H. by vm_compute.
Defined.

Lemma well_formed_to_dict s : well_formed (to_dict s).
Proof.
  destruct (to_dict_lookups s) as (A1 & A2 & A3 & A4 & _).
  apply well_formed_lookups. rewrite A1 A2 A3 A4. eauto.
Qed.

Lemma segment_of_to_dict s : segment_of false None (to_dict s) = as_loaded s.
Proof.
  destruct (to_dict_lookups s) as (A1 & A2 & A3 & A4 & A5 & A6 & _).
  unfold segment_of, as_loaded, dict_get. by rewrite A1 A2 A3 A4 A5 A6.
Qed.

Lemma reload_from_state_eq q q' :
  load_overview_segments (state_segments (get_queue_state q)) q' =
  (set_segments (map as_loaded (segments q)) q', inr tt).
Proof.
  rewrite load_overview_segments_well_formed.
  - simpl. apply Forall_fmap, Forall_forall. intros s _. apply well_formed_to_dict.
  - simpl. f_equal. f_equal.
    induction (segments q) as [|s l IH]; simpl; [done|].
    by rewrite segment_of_to_dict IH.
Qed.

(** X7: loading the segments of a report back, into any queue, never raises
    and rebuilds every reported segment with the same id, speaker, text,
    sequence, duration and audio url, in the same order; only the response
    flag and the insertion time are reset. *)
Theorem reload_from_state q q' :
  (load_overview_segments (state_segments (get_queue_state q)) q').2 = inr tt /\
  segments (load_overview_segments (state_segments (get_queue_state q)) q').1 =
    map as_loaded (segments q) /\
  current_position (load_overview_segments (state_segments (get_queue_state q)) q').1 =
    current_position q' /\
  playback_paused (load_overview_segments (state_segments (get_queue_state q)) q').1 =
    playback_paused q' /\
  (forall s, as_loaded s =
     {| segment_id := segment_id s; speaker := speaker s; text := text s;
        sequence := sequence s; duration_ms := duration_ms s;
        audio_url := audio_url s; is_response := false; inserted_at := None |}).
Proof. by rewrite reload_from_state_eq. Qed.

(** ** What a load leaves behind *)

Lemma load_loop_valid_prefix segs q :
  (load_loop segs q).1 =
  set_segments (segments q ++ map (segment_of false None) (valid_prefix segs)) q.
Proof.
  revert q. induction segs as [|d segs IH]; intros q; simpl.
  - by rewrite app_nil_r set_segments_id.
  - unfold Py.bind. destruct (missing_field d) as [k|] eqn:E.
    + rewrite (build_segment_missing _ _ _ _ E). simpl.
      by rewrite app_nil_r set_segments_id.
    + apply missing_field_None in E.
      rewrite (build_segment_well_formed _ _ _ E). simpl.
      rewrite IH. simpl. by rewrite -app_assoc.
Qed.

Lemma valid_prefix_well_formed segs :
  Forall well_formed segs -> valid_prefix segs = segs.
Proof.
  induction 1 as [|d segs Hd _ IH]; simpl; [done|].
  apply missing_field_None in Hd. by rewrite Hd IH.
Qed.

(** X8: whatever the records, a load leaves exactly the segments built from
    the records in front of the first malformed one (all of them when none is
    malformed), each flagged as not a response; nothing of the previous list
    survives, so the outcome does not depend on what was loaded before, and a
    second load undoes the first. *)
Theorem load_replaces segs q :
  segments (load_overview_segments segs q).1 =
    map (segment_of false None) (valid_prefix segs) /\
  ((load_overview_segments segs q).2 =
     match first_missing segs with
     | Some k => inl (KeyError k)
     | None => inr tt
     end) /\
  Forall (fun s => is_response s = false /\ inserted_at s = None)
         (segments (load_overview_segments segs q).1) /\
  (forall earlier,
     load_overview_segments segs (load_overview_segments earlier q).1 =
     load_overview_segments segs q).
Proof.
  assert (Hseg : forall segs0 q0, (load_overview_segments segs0 q0).1 =
            set_segments (map (segment_of false None) (valid_prefix segs0)) q0).
  { intros segs0 q0. unfold load_overview_segments, Py.bind. simpl.
    by rewrite load_loop_valid_prefix. }
  split; [by rewrite Hseg|]. split; [|split].
  - destruct (first_missing segs) as [k|] eqn:E.
    + by apply load_overview_segments_raises.
    + apply first_missing_None in E.
      by rewrite load_overview_segments_well_formed.
  - rewrite Hseg. simpl. apply Forall_fmap, Forall_forall. by intros d _.
  - intros earlier. rewrite (Hseg earlier q).
    unfold load_overview_segments, Py.bind. by simpl.
Qed.

(** ** Insertion and playback *)

(** X9: on a queue whose cursor is on a segment, a well-formed insertion
    after the cursor leaves the current segment where it is, puts the [j]-th
    response [j + 1] places after the cursor with its response flag and its
    clock reading, and makes the next [advance] succeed and land on the first
    response. *)
Theorem insert_then_advance utcnow r0 rest q :
  0 <= current_position q < len (segments q) ->
  Forall well_formed (r0 :: rest) ->
  let q1 := (insert_response utcnow (r0 :: rest) true q).1 in
  get_next_segment q1 = get_next_segment q /\
  (forall (j : nat) d,
     (r0 :: rest) !! j = Some d ->
     segments q1 !! (Z.to_nat (current_position q) + 1 + j)%nat =
       Some (segment_of true (Some (utcnow j)) d)) /\
  (advance q1).2 = true /\
  current_position (advance q1).1 = current_position q + 1 /\
  segments (advance q1).1 = segments q1 /\
  get_next_segment (advance q1).1 =
    inr (Some (segment_of true (Some (utcnow 0%nat)) r0)).
Proof.
  intros [Hc Hlt] Hwf q1. subst q1.
  rewrite insert_response_spec //. simpl fst.
  set (new := responses_of utcnow 0 (r0 :: rest)).
  assert (Hp : 0 <= insert_pos_of true q) by (unfold insert_pos_of; lia).
  assert (Hmin : (Z.to_nat (insert_pos_of true q) `min` length (segments q))%nat =
                 (Z.to_nat (current_position q) + 1)%nat).
  { unfold insert_pos_of, len in *. lia. }
  assert (Hresp : forall (j : nat) d, (r0 :: rest) !! j = Some d ->
            spliced (insert_pos_of true q) new (segments q)
              !! (Z.to_nat (current_position q) + 1 + j)%nat =
            Some (segment_of true (Some (utcnow j)) d)).
  { intros j d Hd. rewrite lookup_spliced // Hmin.
    apply lookup_lt_Some in Hd as Hj.
    subst new. rewrite length_responses_of.
    repeat case_bool_decide; try lia.
    rewrite lookup_responses_of.
    replace (Z.to_nat (current_position q) + 1 + j -
             (Z.to_nat (current_position q) + 1))%nat with j by lia.
    by rewrite Hd. }
  assert (Hadv0 : (current_position q <?
                   len (spliced (insert_pos_of true q) new (segments q)) - 1) = true).
  { apply Z.ltb_lt. unfold len in *. rewrite length_spliced.
    subst new. rewrite length_responses_of. simpl. lia. }
  split; [|split; [done|split; [|split; [|split]]]].
  - rewrite !get_next_segment_nonneg //. simpl. f_equal.
    rewrite lookup_spliced // Hmin. case_bool_decide; [done | lia].
  - unfold advance. simpl. by rewrite Hadv0.
  - unfold advance. simpl. by rewrite Hadv0.
  - unfold advance. simpl. by rewrite Hadv0.
  - unfold advance. simpl.
    assert (Hadv : (current_position q <?
                    len (spliced (insert_pos_of true q) new (segments q)) - 1) = true).
    { apply Z.ltb_lt. unfold len in *. rewrite length_spliced.
      subst new. rewrite length_responses_of. simpl. lia. }
    rewrite Hadv. simpl. rewrite get_next_segment_nonneg; [simpl; lia|]. simpl.
    f_equal. specialize (Hresp 0%nat r0 eq_refl).
    replace (Z.to_nat (current_position q + 1))
      with (Z.to_nat (current_position q) + 1 + 0)%nat by lia.
    exact Hresp.
Qed.

Lemma insert_then_advance_witness :
  get_next_segment
    (advance (insert_response test_clock response_segments true loaded_test_queue).1).1 =
  inr (Some (segment_of true (Some (test_clock 0%nat))
               (record "resp_0" "ravi" "Great question!" 0 2000 "/api/audio/resp_0"))).
Proof.
  apply (insert_then_advance test_clock
           (record "resp_0" "ravi" "Great question!" 0 2000 "/api/audio/resp_0")
           [record "resp_1" "zoya" "Let me explain..." 1 3500 "/api/audio/resp_1"]
           loaded_test_queue).
  - by vm_compute.
  - apply well_formed_response_segments.
Defined.

(** X10: when the cursor is at or past the end (as on a queue that was never
    loaded), an insertion after the cursor appends the responses at the end
    and still returns [current_position + 1], which is larger than the index
    the first response is stored at. *)
Theorem insert_past_end utcnow rs q :
  0 <= current_position q -> len (segments q) <= current_position q ->
  rs <> [] -> Forall well_formed rs ->
  (insert_response utcnow rs true q).2 = inr (current_position q + 1) /\
  segments (insert_response utcnow rs true q).1 =
    segments q ++ responses_of utcnow 0 rs /\
  current_position (insert_response utcnow rs true q).1 = current_position q /\
  (exists r, responses_of utcnow 0 rs !! 0%nat = Some r /\
     segments (insert_response utcnow rs true q).1 !! length (segments q) = Some r) /\
  len (segments q) < current_position q + 1.
Proof.
  intros Hc Hge Hne Hwf.
  assert (Heq : insert_response utcnow rs true q =
    (set_segments (segments q ++ responses_of utcnow 0 rs) q,
     inr (current_position q + 1))).
  { rewrite insert_response_spec //. unfold insert_pos_of, spliced.
    unfold len in Hge. rewrite take_ge; [lia|]. rewrite drop_ge; [lia|].
    simpl. by rewrite app_nil_r. }
  rewrite Heq. do 3 (split; [done|]). split; [|lia].
  simpl. destruct rs as [|d rs]; [done|]. simpl.
  eexists. split; [done|]. by rewrite lookup_app_r // Nat.sub_diag.
Qed.

Lemma insert_past_end_witness :
  (insert_response test_clock response_segments true (init "test_overview_001")).2 =
    inr (0 + 1) /\
  segments
    (insert_response test_clock response_segments true (init "test_overview_001")).1 =
    [] ++ responses_of test_clock 0 response_segments.
Proof.
  destruct (insert_past_end test_clock response_segments (init "test_overview_001"))
    as (H1 & H2 & _); [done | done | done | apply well_formed_response_segments |].
  by split.
Defined.

(** ** Response flags *)

Lemma response_count_app l k :
  response_count (l ++ k) = (response_count l + response_count k)%nat.
Proof. unfold response_count. by rewrite filter_app length_app. Qed.

Lemma response_count_renumber i l : response_count (renumber i l) = response_count l.
Proof.
  revert i. induction l as [|s l IH]; intros i; [done|].
  simpl. unfold response_count in *.
  rewrite !filter_cons. simpl.
  destruct (decide (is_response s = true)); simpl; by rewrite IH.
Qed.

Lemma response_count_responses_of utcnow k rs :
  response_count (responses_of utcnow k rs) = length rs.
Proof.
  revert k. induction rs as [|d rs IH]; intros k; [done|].
  simpl. unfold response_count in *. rewrite filter_cons. simpl.
  destruct (decide (true = true)); [|done]. simpl. by rewrite IH.
Qed.

Lemma response_count_loaded segs :
  response_count (map (segment_of false None) segs) = 0%nat.
Proof.
  induction segs as [|d segs IH]; [done|].
  simpl. unfold response_count in *. rewrite filter_cons. simpl.
  destruct (decide (false = true)); [done|]. exact IH.
Qed.

(** X11: the number of segments flagged as responses is 0 after any load,
    grows by exactly the number of records on a well-formed insertion, and
    is unchanged by an insertion that raises. *)
Theorem response_count_tracks_insertions utcnow rs after q segs :
  response_count (segments (load_overview_segments segs q).1) = 0%nat /\
  (0 <= current_position q -> Forall well_formed rs ->
     response_count (segments (insert_response utcnow rs after q).1) =
       (response_count (segments q) + length rs)%nat) /\
  (~ Forall well_formed rs ->
     response_count (segments (insert_response utcnow rs after q).1) =
       response_count (segments q)).
Proof.
  split; [|split].
  - unfold load_overview_segments, Py.bind. simpl.
    rewrite load_loop_valid_prefix. simpl. apply response_count_loaded.
  - intros Hc Hwf. destruct (decide (rs = [])) as [->|Hne]; [simpl; lia|].
    rewrite insert_response_spec //. simpl. unfold spliced.
    rewrite !response_count_app response_count_renumber
            response_count_responses_of.
    rewrite -{3}(take_drop (Z.to_nat (insert_pos_of after q)) (segments q)).
    rewrite response_count_app. lia.
  - intros Hbad. destruct (malformed_first_missing rs Hbad) as [k Hk].
    by rewrite (insert_response_raises _ _ _ _ _ Hk).
Qed.

Lemma response_count_tracks_insertions_witness :
  response_count (segments after_test_insert) = 2%nat.
Proof.
  destruct (response_count_tracks_insertions test_clock response_segments true
              loaded_test_queue []) as (_ & H & _).
  unfold after_test_insert. simpl run.
  rewrite H; [done | apply well_formed_response_segments | done].
Defined.

(** ** Insertion and lookup by id *)

Lemma segment_of_segment_id resp stamp d v :
  d !! "segment_id" = Some v -> segment_id (segment_of resp stamp d) = v.
Proof. intros H. unfold segment_of, dict_get. simpl. by rewrite H. Qed.

(** X12: after a well-formed insertion, looking up an id that no earlier
    segment of the queue has returns the segment built from the first
    inserted record whose id equals it. *)
Theorem lookup_inserted_by_id utcnow rs after q (j : nat) d v v' :
  0 <= current_position q -> Forall well_formed rs ->
  get_segment_by_id v q = None ->
  rs !! j = Some d -> d !! "segment_id" = Some v' -> py_eq v' v = true ->
  (forall (i : nat) d' u, (i < j)%nat -> rs !! i = Some d' ->
                          d' !! "segment_id" = Some u -> py_eq u v = false) ->
  get_segment_by_id v (insert_response utcnow rs after q).1 =
    Some (segment_of true (Some (utcnow j)) d).
Proof.
  intros Hc Hwf Hnone Hd Hv Heq Hfirst.
  assert (Hne : rs <> []) by (intros ->; done).
  rewrite insert_response_spec //. unfold get_segment_by_id in *. simpl.
  apply find_segment_None in Hnone.
  pose proof (insert_pos_of_nonneg after q Hc) as Hp.
  set (p := insert_pos_of after q) in *.
  set (m := (Z.to_nat p `min` length (segments q))%nat).
  apply lookup_lt_Some in Hd as Hj.
  apply find_segment_Some. exists (m + j)%nat. split; [|split].
  - rewrite lookup_spliced //. fold m. rewrite length_responses_of.
    repeat case_bool_decide; try lia.
    rewrite lookup_responses_of. replace (m + j - m)%nat with j by lia.
    by rewrite Hd.
  - by rewrite (segment_of_segment_id _ _ _ _ Hv).
  - intros i s' Hi. rewrite lookup_spliced //. fold m.
    rewrite length_responses_of.
    repeat case_bool_decide; try lia.
    + intros Hs'. eapply Forall_lookup_1 in Hnone; [|exact Hs']. done.
    + rewrite lookup_responses_of.
      destruct (rs !! (i - m)%nat) as [d'|] eqn:Hd'; simpl; [|done].
      intros [= <-].
      eapply Forall_lookup_1 in Hwf as Hwf'; [|exact Hd'].
      apply well_formed_lookups in Hwf' as ([u Hu] & _).
      rewrite (segment_of_segment_id _ _ _ _ Hu).
      by apply (Hfirst (i - m)%nat d' u); [lia | done |].
Qed.

Lemma lookup_inserted_by_id_witness :
  get_segment_by_id (VStr "resp_1")
    (insert_response test_clock response_segments true loaded_test_queue).1 =
  Some (segment_of true (Some (test_clock 1%nat))
          (record "resp_1" "zoya" "Let me explain..." 1 3500 "/api/audio/resp_1")).
Proof.
  refine (lookup_inserted_by_id test_clock response_segments true
            loaded_test_queue 1%nat
            (record "resp_1" "zoya" "Let me explain..." 1 3500 "/api/audio/resp_1")
            (VStr "resp_1") (VStr "resp_1") _ well_formed_response_segments
            _ _ _ _ _).
  - done.
  - by vm_compute.
  - done.
  - by vm_compute.
  - by vm_compute.
  - intros [|i] d' u Hi; [|lia]. simpl. intros [= <-].
    vm_compute. by intros [= <-].
Defined.

(** ** The registry across calls *)

Lemma registry_ok_empty : registry_ok empty_registry.
Proof. split; [intros oid ref H | intros oid1 oid2 ref H]; by rewrite lookup_empty in H. Qed.

Lemma registry_ok_get oid w :
  registry_ok w -> registry_ok (get_conversation_queue oid w).1.
Proof.
  intros [Hobj Hinj]. unfold get_conversation_queue.
  destruct (_queues w !! oid) as [ref|] eqn:E; [done|]. simpl.
  set (ref := fresh (dom (objects w))).
  assert (Hfresh : ref ∉ dom (objects w)) by apply is_fresh.
  assert (Hold : forall o r, _queues w !! o = Some r -> r <> ref).
  { intros o r Hr ->. apply Hfresh, elem_of_dom. by eapply Hobj. }
  split.
  - intros o r. simpl. destruct (decide (o = oid)) as [->|Ho].
    + rewrite lookup_insert_eq. intros [= <-]. by rewrite lookup_insert_eq.
    + rewrite lookup_insert_ne //. intros Hr.
      rewrite lookup_insert_ne; [|by eapply Hobj].
      intros ->. by eapply Hold.
  - intros o1 o2 r. simpl.
    destruct (decide (o1 = oid)) as [->|H1], (decide (o2 = oid)) as [->|H2];
      rewrite ?lookup_insert_eq ?lookup_insert_ne //.
    + intros [= <-] Hr. exfalso. by eapply Hold.
    + intros Hr [= <-]. exfalso. by eapply Hold.
    + apply Hinj.
Qed.

Lemma registry_ok_clear oid w : registry_ok w -> registry_ok (clear_queue oid w).
Proof.
  intros [Hobj Hinj]. unfold clear_queue.
  destruct (_queues w !! oid) as [ref|] eqn:E; [|done]. split; simpl.
  - intros o r Hr. apply lookup_delete_Some in Hr as [_ Hr]. by eapply Hobj.
  - intros o1 o2 r H1 H2.
    apply lookup_delete_Some in H1 as [_ H1].
    apply lookup_delete_Some in H2 as [_ H2]. by eapply Hinj.
Qed.

Lemma registry_ok_method ref c w :
  registry_ok w -> registry_ok (registry_run (Method ref c) w).
Proof.
  intros [Hobj Hinj]. simpl.
  destruct (objects w !! ref) as [q|] eqn:E; [|done]. split; simpl; [|done].
  intros o r Hr. destruct (decide (r = ref)) as [->|Hne].
  - by rewrite lookup_insert_eq.
  - rewrite lookup_insert_ne //. by eapply Hobj.
Qed.

Lemma registry_reachable_ok w : registry_reachable w -> registry_ok w.
Proof.
  induction 1 as [|c w Hw IH]; [apply registry_ok_empty|].
  destruct c as [oid|oid|ref c].
  - by apply registry_ok_get.
  - by apply registry_ok_clear.
  - by apply registry_ok_method.
Qed.

(** X13: in every registry state reachable through [get_conversation_queue],
    [clear_queue] and method calls on handed-out queues, every registered id
    refers to a live queue object, two different ids never refer to the same
    object, and a method call on the queue of one id leaves the queue of
    every other id unchanged. *)
Theorem registry_queues_independent w :
  registry_reachable w ->
  registry_ok w /\
  (forall oid1 oid2 ref1 ref2,
     oid1 <> oid2 ->
     _queues w !! oid1 = Some ref1 -> _queues w !! oid2 = Some ref2 ->
     ref1 <> ref2 /\
     forall c, objects (registry_run (Method ref1 c) w) !! ref2 =
               objects w !! ref2).
Proof.
  intros Hw. pose proof (registry_reachable_ok w Hw) as [Hobj Hinj].
  split; [done|].
  intros oid1 oid2 ref1 ref2 Hne H1 H2.
  assert (Href : ref1 <> ref2).
  { intros ->. apply Hne. by eapply Hinj. }
  split; [done|]. intros c. simpl.
  destruct (objects w !! ref1); [|done]. simpl. by rewrite lookup_insert_ne.
Qed.

Lemma registry_queues_independent_witness :
  registry_ok
    (registry_run (GetQueue "b") (registry_run (GetQueue "a") empty_registry)).
Proof.
  apply registry_queues_independent.
  do 2 apply registry_step. apply registry_start.
Defined.

(** X14: clearing a registered id and asking for it again yields a new
    empty queue in a new object; the old object is not reused and stays as it
    was, so a handle obtained before the clear no longer reaches the
    registered queue. *)
Theorem clear_then_get_is_fresh oid ref w :
  registry_ok w -> _queues w !! oid = Some ref ->
  let w1 := clear_queue oid w in
  let w2 := (get_conversation_queue oid w1).1 in
  let ref' := (get_conversation_queue oid w1).2 in
  _queues w1 !! oid = None /\
  ref' <> ref /\
  _queues w2 !! oid = Some ref' /\
  objects w2 !! ref' = Some (init oid) /\
  objects w2 !! ref = objects w !! ref.
Proof.
  intros [Hobj Hinj] Href. simpl.
  unfold clear_queue. rewrite Href. unfold get_conversation_queue. simpl.
  rewrite lookup_delete_eq. simpl.
  set (ref' := fresh (dom (objects w))).
  assert (Hfresh : ref' ∉ dom (objects w)) by apply is_fresh.
  assert (Hne : ref' <> ref).
  { intros Heq. apply Hfresh. rewrite Heq. apply elem_of_dom. by eapply Hobj. }
  split; [done|]. split; [done|]. split; [by rewrite lookup_insert_eq|].
  split; [by rewrite lookup_insert_eq | by rewrite lookup_insert_ne].
Qed.

Lemma clear_then_get_is_fresh_witness :
  (get_conversation_queue "a"
     (clear_queue "a" (get_conversation_queue "a" empty_registry).1)).2 <>
  (get_conversation_queue "a" empty_registry).2.
Proof.
  pose proof (clear_then_get_is_fresh "a"
    (get_conversation_queue "a" empty_registry).2
    (get_conversation_queue "a" empty_registry).1
    (registry_ok_get "a" empty_registry registry_ok_empty)) as H.
  apply H. by vm_compute.
Defined.

(** ** The script generator *)

Lemma fix_sequences_lookup i segs (k : nat) :
  Script.fix_sequences i segs !! k =
  Script.set_sequence (i + Z.of_nat k) <$> segs !! k.
Proof.
  revert i k. induction segs as [|seg segs IH]; intros i [|k]; simpl; try done.
  - rewrite Z.add_0_r. case_bool_decide as H; [|done].
    destruct seg as [sp tx sq]. simpl in H. by subst sq.
  - rewrite IH. do 2 f_equal. lia.
Qed.

Lemma fix_sequences_length i segs :
  length (Script.fix_sequences i segs) = length segs.
Proof. revert i. induction segs as [|seg segs IH]; intros i; simpl; [done | by rewrite IH]. Qed.




(** X16: [generate_dialogue] returns, for whatever non-empty list the client
    produced, the same turns in the same order with sequence numbers
    0, 1, 2, ...; it raises [ValueError] exactly when the client produced no
    segment. *)
Theorem generate_dialogue_sequenced generated :
  (generated = [] ->
     Script.generate_dialogue generated = inl (ValueError "Dialogue is empty")) /\
  (generated <> [] ->
     exists segs,
       Script.generate_dialogue generated = inr segs /\
       length segs = length generated /\
       map Script.speaker segs = map Script.speaker generated /\
       map Script.text segs = map Script.text generated /\
       forall (k : nat) seg, segs !! k = Some seg ->
                             Script.sequence seg = Z.of_nat k).
Proof.
  assert (Hid : (Script._ensure_speaker_alternation generated).1 = generated).
  { by destruct generated as [|a [|b l]]. }
  unfold Script.generate_dialogue. rewrite Hid. split.
  - by intros ->.
  - intros Hne. destruct generated as [|seg rest]; [done|].
    set (l := seg :: rest). unfold Script._validate_dialogue_structure. fold l.
    exists (Script.fix_sequences 0 l).
    split; [done|]. split; [apply fix_sequences_length|].
    assert (Hmap : forall i segs,
              map Script.speaker (Script.fix_sequences i segs) =
                map Script.speaker segs /\
              map Script.text (Script.fix_sequences i segs) =
                map Script.text segs).
    { intros i segs. revert i. induction segs as [|s segs IH]; intros i; [done|].
      simpl. destruct (IH (i + 1)) as [-> ->]. by case_bool_decide. }
    destruct (Hmap 0 l) as [Hs Ht]. split; [done|]. split; [done|].
    intros k s. rewrite fix_sequences_lookup.
    destruct (l !! k); simpl; [|done]. intros [= <-]. simpl. lia.
Qed.

Lemma generate_dialogue_sequenced_witness :
  Script.generate_dialogue [] = inl (ValueError "Dialogue is empty") /\
  exists segs,
    Script.generate_dialogue [Script.mkDialogueSegment "zoya" "Welcome!" 7] =
      inr segs /\
    length segs = 1%nat.
Proof.
  split.
  - by apply (generate_dialogue_sequenced []).
  - destruct (generate_dialogue_sequenced
                [Script.mkDialogueSegment "zoya" "Welcome!" 7]) as [_ H].
    destruct (H ltac:(done)) as (segs & Hg & Hl & _). by exists segs.
Defined.

Lemma turns_cons sp seg segs :
  Script.turns sp (seg :: segs) =
  (if bool_decide (Script.speaker seg = sp) then 1 else 0) + Script.turns sp segs.
Proof.
  unfold Script.turns, len. rewrite filter_cons.
  case_bool_decide; destruct (decide _); try done; simpl; lia.
Qed.

Lemma turns_bounds sp segs : 0 <= Script.turns sp segs <= len segs.
Proof.
  unfold Script.turns, len.
  pose proof (length_filter (fun seg => Script.speaker seg = sp) segs). lia.
Qed.

Lemma count_speakers_lookup segs (m : gmap string Z) sp :
  Script.count_speakers segs m !! sp =
  if Script.turns sp segs =? 0 then m !! sp
  else Some (default 0 (m !! sp) + Script.turns sp segs).
Proof.
  revert m. induction segs as [|seg segs IH]; intros m; [done|].
  simpl. rewrite IH turns_cons.
  pose proof (turns_bounds sp segs) as Hb.
  case_bool_decide as Hsp.
  - rewrite Hsp lookup_insert_eq. simpl.
    destruct (Z.eqb_spec (Script.turns sp segs) 0) as [H0|H0],
             (Z.eqb_spec (1 + Script.turns sp segs) 0) as [H1|H1];
      try lia; f_equal; lia.
  - rewrite lookup_insert_ne //.
Qed.

(** X17: [get_speaker_distribution] has an entry for exactly the speakers
    that have a turn, and the count of an entry is the number of turns of
    that speaker, between 1 and the number of segments. *)
Theorem speaker_distribution_counts {F : Type} (percentage : Z -> Z -> F) segs sp :
  (Script.get_speaker_distribution percentage segs !! sp = None <->
     Script.turns sp segs = 0) /\
  (forall count pct,
     Script.get_speaker_distribution percentage segs !! sp = Some (count, pct) ->
     count = Script.turns sp segs /\ 1 <= count <= len segs /\
     pct = percentage count (len segs)) /\
  (Script.turns sp segs <> 0 ->
     Script.get_speaker_distribution percentage segs !! sp =
       Some (Script.turns sp segs,
             percentage (Script.turns sp segs) (len segs))).
Proof.
  unfold Script.get_speaker_distribution.
  rewrite lookup_fmap count_speakers_lookup lookup_empty. simpl.
  pose proof (turns_bounds sp segs) as Hbound.
  destruct (Z.eqb_spec (Script.turns sp segs) 0) as [H0|H0]; simpl.
  - split; [done|]. split; [done|]. done.
  - split; [split; [done | lia]|]. split.
    + intros count pct [= <- <-]. rewrite Z.add_0_l. split; [done|]. split; [lia|done].
    + intros _. by rewrite Z.add_0_l.
Qed.

Lemma speaker_distribution_counts_witness :
  Script.get_speaker_distribution (fun count total => (count, total))
    [Script.mkDialogueSegment "zoya" "a" 0; Script.mkDialogueSegment "ravi" "b" 1;
     Script.mkDialogueSegment "zoya" "c" 2] !! "zoya" = Some (2, (2, 3)).
Proof.
  destruct (speaker_distribution_counts (fun count total => (count, total))
    [Script.mkDialogueSegment "zoya" "a" 0; Script.mkDialogueSegment "ravi" "b" 1;
     Script.mkDialogueSegment "zoya" "c" 2] "zoya") as (_ & _ & H).
  rewrite H; by vm_compute.
Defined.

Lemma alternation_loop_counts i c last rest w :
  w ∈ Script.alternation_loop i c last rest -> 2 < Script.warned_count w.
Proof.
  revert i c last. induction rest as [|seg rest IH]; intros i c last; simpl.
  - by intros ?%elem_of_nil.
  - case_bool_decide; [|by apply IH].
    rewrite elem_of_app. intros [Hw|Hw]; [|by eapply IH].
    destruct (Z.ltb_spec 2 (c + 1)); [|by apply elem_of_nil in Hw].
    apply list_elem_of_singleton in Hw. subst w. by simpl.
Qed.

Lemma list_nil_or_snoc {A} (l : list A) :
  l = [] \/ exists l' x, l = l' ++ [x].
Proof. induction l as [|x l _] using rev_ind; [by left | right; eauto]. Qed.

Lemma alternation_loop_positions rest :
  forall (pre : list Script.DialogueSegment) b c,
    1 <= c ->
    (2 <= c <-> exists pre1 a, pre = pre1 ++ [a] /\
                               Script.speaker a = Script.speaker b) ->
    forall i : nat,
      (exists w, w ∈ Script.alternation_loop (len (pre ++ [b])) c
                       (Script.speaker b) rest /\
                 Script.warned_at w = Z.of_nat i) <->
      ((length (pre ++ [b]) <= i)%nat /\
       third_consecutive_turn (pre ++ [b] ++ rest) i).
Proof.
  induction rest as [|seg rest IH]; intros pre b c Hc1 Hc i; simpl.
  - split.
    + by intros (w & Hw%elem_of_nil & _).
    + intros (Hle & j & x & y & z & -> & _ & _ & Hz & _).
      apply lookup_lt_Some in Hz. lia.
  - assert (Hlen : len (pre ++ [b]) + 1 = len ((pre ++ [b]) ++ [seg])).
    { by rewrite (len_app (pre ++ [b])). }
    assert (Hn : length (pre ++ [b]) = S (length pre)).
    { rewrite length_app. simpl. lia. }
    assert (Hthird_here :
      third_consecutive_turn (pre ++ b :: seg :: rest) (length (pre ++ [b])) <->
      (Script.speaker seg = Script.speaker b /\
       exists pre1 a, pre = pre1 ++ [a] /\ Script.speaker a = Script.speaker b)).
    { rewrite Hn. split.
      - intros (j & x & y & z & Hj & Hx & Hy & Hz & Hxy & Hyz).
        assert (length pre = S j) as Hpre by lia.
        destruct (list_nil_or_snoc pre) as [Hnil|(pre1 & a & ->)].
        { subst pre. done. }
        rewrite length_app in Hpre. simpl in Hpre.
        assert (length pre1 = j) as <- by lia.
        rewrite -app_assoc in Hx, Hy, Hz. simpl in Hx, Hy, Hz.
        rewrite lookup_app_r // Nat.sub_diag in Hx. simpl in Hx.
        rewrite lookup_app_r in Hy; [lia|].
        replace (length pre1 + 1 - length pre1)%nat with 1%nat in Hy by lia.
        rewrite lookup_app_r in Hz; [lia|].
        replace (length pre1 + 2 - length pre1)%nat with 2%nat in Hz by lia.
        simpl in Hy, Hz. simplify_eq. split; [done|]. by exists pre1, x.
      - intros (Hseg & pre1 & a & -> & Ha).
        exists (length pre1), a, b, seg.
        rewrite length_app. simpl. split; [lia|].
        rewrite -app_assoc. simpl.
        rewrite lookup_app_r // Nat.sub_diag.
        rewrite lookup_app_r; [lia|].
        replace (length pre1 + 1 - length pre1)%nat with 1%nat by lia.
        rewrite lookup_app_r; [lia|].
        replace (length pre1 + 2 - length pre1)%nat with 2%nat by lia.
        by simpl. }
    assert (Hshape : pre ++ b :: seg :: rest = (pre ++ [b]) ++ [seg] ++ rest).
    { by rewrite -app_assoc. }
    case_bool_decide as Hsp.
    + rewrite Hlen -Hsp.
      specialize (IH (pre ++ [b]) seg (c + 1)).
      rewrite -Hshape in IH. rewrite -Hsp in Hthird_here.
      assert (Hc' : 2 <= c + 1 <->
                exists pre1 a, pre ++ [b] = pre1 ++ [a] /\
                               Script.speaker a = Script.speaker seg).
      { split; [|lia]. intros _. by exists pre, b. }
      specialize (IH ltac:(lia) Hc' i). split.
      * intros (w & Hw & Hat). apply elem_of_app in Hw as [Hw|Hw].
        -- destruct (Z.ltb_spec 2 (c + 1)) as [Hlt|Hge];
             [|by apply elem_of_nil in Hw].
           apply list_elem_of_singleton in Hw. subst w. simpl in Hat.
           assert (i = length (pre ++ [b])) as -> by (unfold len in Hat; lia).
           split; [done|]. apply Hthird_here. split; [done|].
           rewrite Hsp. apply Hc. lia.
        -- destruct IH as [IH _]. destruct IH as [Hle Ht]; [by exists w|].
           split; [|done]. rewrite length_app in Hle. simpl in Hle. lia.
      * intros [Hle Ht].
        destruct (decide (i = length (pre ++ [b]))) as [->|Hne].
        -- apply Hthird_here in Ht as [_ Hex]. rewrite Hsp in Hex.
           apply Hc in Hex.
           destruct (Z.ltb_spec 2 (c + 1)) as [Hlt|Hge]; [|lia].
           eexists. split; [apply elem_of_app; left; apply list_elem_of_singleton; done|].
           done.
        -- destruct IH as [_ IH]. destruct IH as (w & Hw & Hat).
           { split; [|done]. rewrite length_app. simpl. lia. }
           exists w. split; [|done]. apply elem_of_app. by right.
    + rewrite Hlen.
      specialize (IH (pre ++ [b]) seg 1).
      rewrite -Hshape in IH.
      assert (Hc' : 2 <= 1 <->
                exists pre1 a, pre ++ [b] = pre1 ++ [a] /\
                               Script.speaker a = Script.speaker seg).
      { split; [lia|]. intros (pre1 & a & Heq & Ha).
        apply app_inj_tail in Heq as [_ ->]. by rewrite Ha in Hsp. }
      specialize (IH ltac:(lia) Hc' i). rewrite IH. split.
      * intros [Hle Ht]. split; [|done]. rewrite length_app in Hle. simpl in Hle. lia.
      * intros [Hle Ht]. split; [|done].
        destruct (decide (i = length (pre ++ [b]))) as [->|Hne].
        -- apply Hthird_here in Ht as [Hseg _]. done.
        -- rewrite length_app. simpl. lia.
Qed.

(** X18: [_ensure_speaker_alternation] returns the segments untouched and
    prints a warning at exactly the positions holding a third (or later)
    consecutive turn of one speaker; every warning reports a count above 2. *)
Theorem speaker_alternation_warnings segs :
  (Script._ensure_speaker_alternation segs).1 = segs /\
  (forall i : nat,
     (exists w, w ∈ (Script._ensure_speaker_alternation segs).2 /\
                Script.warned_at w = Z.of_nat i) <->
     third_consecutive_turn segs i) /\
  (forall w, w ∈ (Script._ensure_speaker_alternation segs).2 ->
             2 < Script.warned_count w).
Proof.
  destruct segs as [|first [|second rest]].
  - split; [done|]. split; [|by intros w ?%elem_of_nil].
    intros i. split; [by intros (w & ?%elem_of_nil & _)|].
    by intros (j & x & y & z & _ & Hx & _).
  - split; [done|]. split; [|by intros w ?%elem_of_nil].
    intros i. split; [by intros (w & ?%elem_of_nil & _)|].
    intros (j & x & y & z & _ & _ & Hy & _).
    apply lookup_lt_Some in Hy. simpl in Hy. lia.
  - split; [done|]. split; [|intros w; apply alternation_loop_counts].
    intros i. unfold Script._ensure_speaker_alternation. cbn [snd].
    pose proof (alternation_loop_positions (second :: rest) [] first 1) as H.
    assert (Hc : 2 <= 1 <->
              exists pre1 a, @nil Script.DialogueSegment = pre1 ++ [a] /\
                             Script.speaker a = Script.speaker first).
    { split; [lia|]. intros (pre1 & a & Heq & _). by destruct pre1. }
    specialize (H ltac:(lia) Hc i). simpl app in H. rewrite H. split; [by intros [_ ?]|].
    intros Ht. split; [|done]. destruct Ht as (j & _ & _ & _ & -> & _).
    simpl. lia.
Qed.

Lemma speaker_alternation_warnings_witness :
  exists w,
    w ∈ (Script._ensure_speaker_alternation
           [Script.mkDialogueSegment "zoya" "a" 0;
            Script.mkDialogueSegment "zoya" "b" 1;
            Script.mkDialogueSegment "zoya" "c" 2]).2 /\
    Script.warned_at w = 2.
Proof.
  apply (proj1 (proj2 (speaker_alternation_warnings
           [Script.mkDialogueSegment "zoya" "a" 0;
            Script.mkDialogueSegment "zoya" "b" 1;
            Script.mkDialogueSegment "zoya" "c" 2])) 2%nat).
  exists 0%nat. by repeat eexists.
Defined.

(** ** Audio metadata *)

Lemma audio_to_dict_keys m :
  forallb (fun k => bool_decide (k ∈ Audio.parameters))
          (elements (dom (Audio.to_dict m))) = true.
Proof. destruct m. by vm_compute. Qed.

Lemma audio_to_dict_required m :
  forallb (fun k => bool_decide (is_Some (Audio.to_dict m !! k)))
          Audio.required_parameters = true.
Proof.
  unfold Audio.required_parameters, Audio.to_dict. simpl.
  repeat (rewrite bool_decide_eq_true_2; [by simplify_map_eq|]). done.
Qed.

(** X19: reading back the dictionary written for a metadata record whose
    creation time is set gives the same record, whatever the clock says at
    reading time. *)
Theorem audio_metadata_round_trip now m :
  Audio.truthy (Audio.created_at m) = true ->
  Audio.from_dict now (Audio.to_dict m) = inr m.
Proof.
  intros Hc. unfold Audio.from_dict.
  rewrite audio_to_dict_keys audio_to_dict_required. simpl.
  unfold Audio.__init__, dict_get, Audio.to_dict.
  destruct m as [a1 a2 a3 a4 a5 a6 a7 a8 a9 a10 a11]. simpl in *.
  simplify_map_eq. by rewrite Hc.
Qed.

Lemma audio_metadata_round_trip_witness :
  Audio.from_dict "2025-01-02T00:00:00"
    (Audio.to_dict
       (Audio.__init__ "2025-01-01T00:00:00" (VStr "seg_0") (VStr "zoya")
          (VStr "Welcome") (VInt 0) (VInt 3000) (VStr "a.wav") (VStr "wav")
          (VInt 22050) (VInt 1) (VStr "128k") VNone)) =
  inr (Audio.__init__ "2025-01-01T00:00:00" (VStr "seg_0") (VStr "zoya")
          (VStr "Welcome") (VInt 0) (VInt 3000) (VStr "a.wav") (VStr "wav")
          (VInt 22050) (VInt 1) (VStr "128k") VNone).
Proof. apply audio_metadata_round_trip. by vm_compute. Defined.

Lemma truthy_init_created_at now a1 a2 a3 a4 a5 a6 a7 a8 a9 a10 c :
  now <> "" ->
  Audio.truthy
    (Audio.created_at (Audio.__init__ now a1 a2 a3 a4 a5 a6 a7 a8 a9 a10 c)) = true.
Proof.
  intros Hnow. unfold Audio.__init__. simpl.
  destruct (Audio.truthy c) eqn:E; [done|]. simpl.
  apply negb_true_iff. by apply String.eqb_neq.
Qed.

Lemma audio_from_dict_raises now data :
  Audio.from_dict now data = inl TypeError <->
  (exists k, k ∈ dom data /\ k ∉ Audio.parameters) \/
  (exists k, k ∈ Audio.required_parameters /\ data !! k = None).
Proof.
  unfold Audio.from_dict.
  destruct (forallb (fun k => bool_decide (k ∈ Audio.parameters))
                    (elements (dom data))) eqn:Hkeys; cbn [negb].
  2: { split; [intros _|done]. left.
       apply not_true_iff_false in Hkeys.
       destruct (decide (Forall (fun k => k ∈ Audio.parameters)
                                (elements (dom data)))) as [Hall|Hex].
       - exfalso. apply Hkeys. apply forallb_forall. intros k Hk.
         apply bool_decide_eq_true_2. rewrite Forall_forall in Hall.
         apply Hall. by apply list_elem_of_In.
       - apply not_Forall_Exists in Hex; [|apply _].
         apply Exists_exists in Hex as (k & Hk & Hnot).
         exists k. split; [by apply elem_of_elements | done]. }
  assert (Hdom : forall k, k ∈ dom data -> k ∈ Audio.parameters).
  { intros k Hk. rewrite forallb_forall in Hkeys.
    assert (Hin : In k (elements (dom data))).
    { apply list_elem_of_In. by apply elem_of_elements. }
    pose proof (Hkeys k Hin) as Hb. simpl in Hb.
    by apply bool_decide_eq_true in Hb. }
  destruct (forallb (fun k => bool_decide (is_Some (data !! k)))
                    Audio.required_parameters) eqn:Hreq; cbn [negb].
  2: { split; [intros _|done]. right.
       apply not_true_iff_false in Hreq.
       destruct (decide (Forall (fun k => is_Some (data !! k))
                                Audio.required_parameters)) as [Hall|Hex].
       - exfalso. apply Hreq. apply forallb_forall. intros k Hk.
         apply bool_decide_eq_true_2. rewrite Forall_forall in Hall.
         apply Hall. by apply list_elem_of_In.
       - apply not_Forall_Exists in Hex; [|apply _].
         apply Exists_exists in Hex as (k & Hk & Hnot).
         exists k. split; [done|]. by apply eq_None_not_Some. }
  assert (Hhas : forall k, k ∈ Audio.required_parameters -> is_Some (data !! k)).
  { intros k Hk. rewrite forallb_forall in Hreq.
    assert (Hin : In k Audio.required_parameters) by by apply list_elem_of_In.
    pose proof (Hreq k Hin) as Hb. simpl in Hb.
    by apply bool_decide_eq_true in Hb. }
  split; [done|]. intros [(k & Hk & Hnot)|(k & Hk & Hnone)].
  - by apply Hdom in Hk.
  - apply Hhas in Hk. rewrite Hnone in Hk. by destruct Hk.
Qed.

Lemma audio_from_dict_returns now data m :
  Audio.from_dict now data = inr m ->
  (forall k, k ∈ Audio.required_parameters -> is_Some (data !! k)) /\
  m = Audio.__init__ now
        (dict_get data "segment_id" VNone) (dict_get data "speaker" VNone)
        (dict_get data "text" VNone) (dict_get data "sequence" VNone)
        (dict_get data "duration_ms" VNone) (dict_get data "file_path" VNone)
        (dict_get data "format" (VStr "wav"))
        (dict_get data "sample_rate" (VInt 22050))
        (dict_get data "channels" (VInt 1))
        (dict_get data "bitrate" (VStr "128k"))
        (dict_get data "created_at" VNone).
Proof.
  intros Hm. split.
  - intros k Hk. destruct (data !! k) eqn:E; [done|].
    assert (Audio.from_dict now data = inl TypeError) as Hbad.
    { apply audio_from_dict_raises. right. by exists k. }
    congruence.
  - unfold Audio.from_dict in Hm.
    destruct (negb _); [done|]. destruct (negb _); [done|]. congruence.
Qed.

Lemma dict_get_Some d k dflt v : d !! k = Some v -> dict_get d k dflt = v.
Proof. intros H. unfold dict_get. by rewrite H. Qed.

(** X20: [from_dict] raises [TypeError] exactly when the dictionary has a
    key that is no constructor parameter or lacks a required one; otherwise
    it takes the six required values from the dictionary, the defaults
    "wav", 22050, 1 and "128k" for absent optional keys, and a creation time
    that is the clock reading when the dictionary has none; with a non-empty
    clock reading the record then survives a write and a read unchanged. *)
Theorem audio_from_dict_spec now data :
  (Audio.from_dict now data = inl TypeError <->
     (exists k, k ∈ dom data /\ k ∉ Audio.parameters) \/
     (exists k, k ∈ Audio.required_parameters /\ data !! k = None)) /\
  (forall m,
     Audio.from_dict now data = inr m ->
     data !! "segment_id" = Some (Audio.segment_id m) /\
     data !! "speaker" = Some (Audio.speaker m) /\
     data !! "text" = Some (Audio.text m) /\
     data !! "sequence" = Some (Audio.sequence m) /\
     data !! "duration_ms" = Some (Audio.duration_ms m) /\
     data !! "file_path" = Some (Audio.file_path m) /\
     Audio.format m = default (VStr "wav") (data !! "format") /\
     Audio.sample_rate m = default (VInt 22050) (data !! "sample_rate") /\
     Audio.channels m = default (VInt 1) (data !! "channels") /\
     Audio.bitrate m = default (VStr "128k") (data !! "bitrate") /\
     (data !! "created_at" = None -> Audio.created_at m = VStr now) /\
     (now <> "" ->
        forall later, Audio.from_dict later (Audio.to_dict m) = inr m)).
Proof.
  split; [apply audio_from_dict_raises|].
  intros m Hm. destruct (audio_from_dict_returns now data m Hm) as [Hhas Heq].
  destruct (Hhas "segment_id") as [v1 H1]; [compute_done|].
  destruct (Hhas "speaker") as [v2 H2]; [compute_done|].
  destruct (Hhas "text") as [v3 H3]; [compute_done|].
  destruct (Hhas "sequence") as [v4 H4]; [compute_done|].
  destruct (Hhas "duration_ms") as [v5 H5]; [compute_done|].
  destruct (Hhas "file_path") as [v6 H6]; [compute_done|].
  rewrite Heq. unfold Audio.__init__. cbn [Audio.segment_id Audio.speaker
    Audio.text Audio.sequence Audio.duration_ms Audio.file_path Audio.format
    Audio.sample_rate Audio.channels Audio.bitrate Audio.created_at].
  rewrite (dict_get_Some _ _ _ _ H1) (dict_get_Some _ _ _ _ H2)
          (dict_get_Some _ _ _ _ H3) (dict_get_Some _ _ _ _ H4)
          (dict_get_Some _ _ _ _ H5) (dict_get_Some _ _ _ _ H6).
  do 6 (split; [done|]).
  do 4 (split; [unfold dict_get; by destruct (data !! _)|]).
  split.
  - intros Hnone. unfold dict_get. by rewrite Hnone.
  - intros Hnow later. apply audio_metadata_round_trip.
    cbn [Audio.created_at].
    destruct (Audio.truthy (dict_get data "created_at" VNone)) eqn:E; [done|].
    cbn [Audio.truthy]. apply negb_true_iff. by apply String.eqb_neq.
Qed.

Lemma audio_from_dict_spec_witness :
  Audio.from_dict "2025-01-01T00:00:00" (<["extra" := VInt 1]> ∅) = inl TypeError.
Proof.
  destruct (audio_from_dict_spec "2025-01-01T00:00:00" (<["extra" := VInt 1]> ∅))
    as [[_ Hraises] _].
  apply Hraises. left. exists "extra". split; [|compute_done].
  apply elem_of_dom. by rewrite lookup_insert_eq.
Defined.
